(** * guitar-pro-mcp: the tablature model and its binary writer

    A shallow embedding of the TypeScript sources

      - src/utils/BinaryWriter.ts   (module [BinaryWriter])
      - src/models/{Note,Beat,Measure,Track,Song}.ts
      - src/writers/GP6Writer.ts    (module [GP6Writer])

    JavaScript numbers are modelled by [Z] (the integer-valued numbers; the
    fractional ones and NaN are outside the model), a JavaScript string by
    the list of its UTF-16 code units, a Node [Buffer] by the list of its
    bytes, and a thrown exception by the [Throw] result. *)

From Stdlib Require Import ZArith Bool Lia.
From stdpp Require Import base list.

Local Open Scope Z_scope.

(** ** Exceptions *)

(** The two exceptions Node's buffer primitives raise. *)
Inductive error : Type :=
| ERR_OUT_OF_RANGE (received : Z)
| ERR_BUFFER_OUT_OF_BOUNDS.

Inductive result (A : Type) : Type :=
| Ok (a : A)
| Throw (e : error).

Arguments Ok {A} a.
Arguments Throw {A} e.

Definition bind {A B : Type} (r : result A) (k : A -> result B) : result B :=
  match r with
  | Ok a => k a
  | Throw e => Throw e
  end.

Notation "x <- r ;; k" := (bind r (fun x => k))
  (at level 100, r at next level, right associativity).

(** ** JavaScript values *)

(** A string is its sequence of UTF-16 code units (each in 0..65535). *)
Abbreviation jsstring := (list Z) (only parsing).

(** Truthiness of an optional field ([None] is [undefined]). *)
Definition truthy_number (o : option Z) : bool :=
  match o with
  | Some n => negb (n =? 0)
  | None => false
  end.

Definition truthy_string (o : option jsstring) : bool :=
  match o with
  | Some (_ :: _) => true
  | _ => false
  end.

Definition truthy_boolean (o : option bool) : bool :=
  match o with
  | Some b => b
  | None => false
  end.

Definition truthy_object {A : Type} (o : option A) : bool :=
  match o with
  | Some _ => true
  | None => false
  end.

(** [o || d] on an optional string. *)
Definition or_string (o : option jsstring) (d : jsstring) : jsstring :=
  match o with
  | Some (c :: s) => c :: s
  | _ => d
  end.

(** The code units of an ASCII literal. *)
Definition lit (s : list nat) : jsstring := map Z.of_nat s.

(** [a.slice(start, end)] of arrays and [b.subarray(start, end)] of
    buffers: a negative index counts from the end, and both indices are
    clamped to the array. *)
Definition relative {A : Type} (l : list A) (i : Z) : Z :=
  let len := Z.of_nat (length l) in
  if i <? 0 then Z.max (len + i) 0 else Z.min i len.

Definition slice {A : Type} (l : list A) (start end_ : Z) : list A :=
  let k := relative l start in
  let final := relative l end_ in
  take (Z.to_nat (final - k)) (drop (Z.to_nat k) l).

(** [a[i]]: [undefined] outside the array. *)
Definition array_get {A : Type} (l : list A) (i : Z) : option A :=
  if i <? 0 then None else l !! Z.to_nat i.

(** ** Node's Buffer

    The part of Node's [Buffer] that the writer uses, after
    lib/buffer.js and lib/internal/buffer.js: the integer writers check
    the value and throw a RangeError when it does not fit the field. *)

Module Buffer.

Abbreviation t := (list Z) (only parsing).

Definition length (b : t) : Z := Z.of_nat (List.length b).

(** [Buffer.alloc(size)]: [size] zero bytes. *)
Definition alloc (size : Z) : t := replicate (Z.to_nat size) 0.

Definition replacement : list Z := [0xEF; 0xBF; 0xBD].

Definition is_high (c : Z) : bool := (0xD800 <=? c) && (c <? 0xDC00).
Definition is_low (c : Z) : bool := (0xDC00 <=? c) && (c <? 0xE000).

Definition utf8_2 (c : Z) : list Z :=
  [Z.lor 0xC0 (Z.shiftr c 6); Z.lor 0x80 (Z.land c 0x3F)].

Definition utf8_3 (c : Z) : list Z :=
  [Z.lor 0xE0 (Z.shiftr c 12);
   Z.lor 0x80 (Z.land (Z.shiftr c 6) 0x3F);
   Z.lor 0x80 (Z.land c 0x3F)].

Definition utf8_4 (c : Z) : list Z :=
  [Z.lor 0xF0 (Z.shiftr c 18);
   Z.lor 0x80 (Z.land (Z.shiftr c 12) 0x3F);
   Z.lor 0x80 (Z.land (Z.shiftr c 6) 0x3F);
   Z.lor 0x80 (Z.land c 0x3F)].

(** [Buffer.from(s, 'utf8')]: the UTF-8 encoding of the code points of
    [s]; a surrogate pair is one code point, a lone surrogate is encoded
    as U+FFFD. *)
Fixpoint from_utf8 (s : jsstring) : t :=
  match s with
  | [] => []
  | c :: rest =>
    if c <? 0x80 then c :: from_utf8 rest
    else if c <? 0x800 then utf8_2 c ++ from_utf8 rest
    else if is_high c then
      match rest with
      | d :: rest' =>
        if is_low d
        then utf8_4 (0x10000 + Z.shiftl (c - 0xD800) 10 + (d - 0xDC00))
               ++ from_utf8 rest'
        else replacement ++ from_utf8 rest
      | [] => replacement
      end
    else if is_low c then replacement ++ from_utf8 rest
    else utf8_3 c ++ from_utf8 rest
  end.

(** [buf[index] = value] on a Uint8Array: the low eight bits are stored,
    and an index outside the array is ignored. *)
Definition set (buf : t) (index value : Z) : t :=
  if (0 <=? index) && (index <? length buf)
  then <[Z.to_nat index := value mod 256]> buf
  else buf.

(** [source.copy(target, targetStart, sourceStart, sourceEnd)]: a negative
    index throws; otherwise the bytes from [sourceStart] up to [sourceEnd]
    (as many as the source has and the target has room for) overwrite the
    target from [targetStart].  The result is the target after the copy. *)
Definition copy (source target : t) (targetStart sourceStart sourceEnd : Z)
  : result t :=
  if targetStart <? 0 then Throw (ERR_OUT_OF_RANGE targetStart)
  else if (sourceStart <? 0) || (sourceStart >? length source)
  then Throw (ERR_OUT_OF_RANGE sourceStart)
  else if sourceEnd <? 0 then Throw (ERR_OUT_OF_RANGE sourceEnd)
  else if (targetStart >=? length target) || (sourceStart >=? sourceEnd)
  then Ok target
  else
    let sourceEnd :=
      if sourceEnd - sourceStart >? length target - targetStart
      then sourceStart + length target - targetStart
      else sourceEnd in
    let nb := Z.min (sourceEnd - sourceStart) (length source - sourceStart) in
    let chunk := take (Z.to_nat nb) (drop (Z.to_nat sourceStart) source) in
    Ok (take (Z.to_nat targetStart) target ++ chunk
          ++ drop (Z.to_nat (targetStart + nb)) target).

(** [buf.writeUInt8(value, offset)]: a value outside 0..255 throws
    ERR_OUT_OF_RANGE, then an offset outside the buffer throws
    ERR_BUFFER_OUT_OF_BOUNDS; nothing is written in either case. *)
Definition writeUInt8 (buf : t) (value offset : Z) : result t :=
  if (value >? 255) || (value <? 0) then Throw (ERR_OUT_OF_RANGE value)
  else if negb ((0 <=? offset) && (offset <? length buf))
  then Throw ERR_BUFFER_OUT_OF_BOUNDS
  else Ok (set buf offset value).

(** [buf.writeInt8(value, offset)]: as [writeUInt8], for -128..127; the
    byte stored is the two's complement of the value. *)
Definition writeInt8 (buf : t) (value offset : Z) : result t :=
  if (value >? 127) || (value <? -128) then Throw (ERR_OUT_OF_RANGE value)
  else if negb ((0 <=? offset) && (offset <? length buf))
  then Throw ERR_BUFFER_OUT_OF_BOUNDS
  else Ok (set buf offset value).

(** [buf.writeInt32LE(value, offset)]: a value outside the signed 32-bit
    range throws; otherwise the four bytes are stored low byte first. *)
Definition writeInt32LE (buf : t) (value offset : Z) : result t :=
  if (value >? 2147483647) || (value <? -2147483648)
  then Throw (ERR_OUT_OF_RANGE value)
  else if negb ((0 <=? offset) && (offset + 3 <? length buf))
  then Throw ERR_BUFFER_OUT_OF_BOUNDS
  else
    let value := value mod 4294967296 in
    let buf := set buf offset value in
    let value := Z.shiftr value 8 in
    let buf := set buf (offset + 1) value in
    let value := Z.shiftr value 8 in
    let buf := set buf (offset + 2) value in
    let value := Z.shiftr value 8 in
    Ok (set buf (offset + 3) value).

(** [buf.subarray(start, end)] *)
Definition subarray (b : t) (start end_ : Z) : t := slice b start end_.

End Buffer.

(** ** src/utils/BinaryWriter.ts *)

Module BinaryWriter.

Record t : Type := mk { buffer : Buffer.t; position : Z }.

(** A method of the writer: it updates the writer or throws. *)
Definition method : Type := t -> result t.

Definition seq (f g : method) : method := fun w => w' <- f w;; g w'.
Definition nop : method := fun w => Ok w.

Fixpoint forOf {A : Type} (l : list A) (body : A -> method) : method :=
  match l with
  | [] => nop
  | x :: l' => seq (body x) (forOf l' body)
  end.

(** [new BinaryWriter(size)]; [Buffer.alloc] rejects a negative size. *)
Definition new (size : Z) : result t :=
  if size <? 0 then Throw (ERR_OUT_OF_RANGE size)
  else Ok {| buffer := Buffer.alloc size; position := 0 |}.

Definition default_size : Z := 1024 * 1024.

Definition ensureCapacity (additional : Z) : method := fun w =>
  let required := position w + additional in
  if required >? Buffer.length (buffer w) then
    let newSize := Z.max required (Buffer.length (buffer w) * 2) in
    let newBuffer := Buffer.alloc newSize in
    newBuffer <- Buffer.copy (buffer w) newBuffer
                      0 0 (Buffer.length (buffer w));;
    Ok {| buffer := newBuffer; position := position w |}
  else Ok w.

Definition writeByte (value : Z) : method := fun w =>
  w <- ensureCapacity 1 w;;
  b <- Buffer.writeUInt8 (buffer w) value (position w);;
  Ok {| buffer := b; position := position w + 1 |}.

Definition writeSignedByte (value : Z) : method := fun w =>
  w <- ensureCapacity 1 w;;
  b <- Buffer.writeInt8 (buffer w) value (position w);;
  Ok {| buffer := b; position := position w + 1 |}.

Definition writeInt (value : Z) : method := fun w =>
  w <- ensureCapacity 4 w;;
  b <- Buffer.writeInt32LE (buffer w) value (position w);;
  Ok {| buffer := b; position := position w + 4 |}.

Definition writeBoolean (value : bool) : method :=
  writeByte (if value then 1 else 0).

Definition writeString (value : jsstring) : method := fun w =>
  let bytes := Buffer.from_utf8 value in
  w <- writeInt (Buffer.length bytes) w;;
  w <- ensureCapacity (Buffer.length bytes) w;;
  b <- Buffer.copy bytes (buffer w) (position w) 0 (Buffer.length bytes);;
  Ok {| buffer := b; position := position w + Buffer.length bytes |}.

Definition writeByteString (value : jsstring) : method := fun w =>
  let bytes := Buffer.from_utf8 value in
  w <- writeByte (Buffer.length bytes) w;;
  w <- ensureCapacity (Buffer.length bytes) w;;
  b <- Buffer.copy bytes (buffer w) (position w) 0 (Buffer.length bytes);;
  Ok {| buffer := b; position := position w + Buffer.length bytes |}.

(** The loop [for (i = from; i < to; i++) buffer[position + i] = 0],
    with [count] iterations left. *)
Fixpoint zero_loop (buf : Buffer.t) (position i : Z) (count : nat)
  : Buffer.t :=
  match count with
  | O => buf
  | S count' =>
    zero_loop (Buffer.set buf (position + i) 0) position (i + 1) count'
  end.

Definition writeFixedString (value : jsstring) (length : Z) : method :=
  fun w =>
  let bytes := Buffer.from_utf8 value in
  let written := Z.min (Buffer.length bytes) length in
  w <- ensureCapacity length w;;
  b <- Buffer.copy bytes (buffer w) (position w) 0 written;;
  let b := zero_loop b (position w) written (Z.to_nat (length - written)) in
  Ok {| buffer := b; position := position w + length |}.

Definition writeBytes (bytes : Buffer.t) : method := fun w =>
  w <- ensureCapacity (Buffer.length bytes) w;;
  b <- Buffer.copy bytes (buffer w) (position w) 0 (Buffer.length bytes);;
  Ok {| buffer := b; position := position w + Buffer.length bytes |}.

Definition writeColor (r g b : Z) : method :=
  seq (writeByte r) (seq (writeByte g) (seq (writeByte b) (writeByte 0))).

Definition skip (count : Z) : method := fun w =>
  w <- ensureCapacity count w;;
  let b := zero_loop (buffer w) (position w) 0 (Z.to_nat count) in
  Ok {| buffer := b; position := position w + count |}.

Definition getPosition (w : t) : Z := position w.

Definition toBuffer (w : t) : Buffer.t :=
  Buffer.subarray (buffer w) 0 (position w).

End BinaryWriter.

(** ** src/models/Note.ts *)

Module Note.

Record t : Type := mk {
  fret : Z;
  string : Z;
  velocity : Z;
  ghost : option bool;
  accentuated : option bool;
  heavyAccentuated : option bool;
  palmMute : option bool;
  vibrato : option bool;
  harmonic : option bool;
  trill : option bool;
  slide : option bool
}.

(** [velocity] defaults to 95 when the argument is left out. *)
Definition createNote (fret string : Z) (velocity : option Z) : t :=
  {| fret := fret;
     string := string;
     velocity := default 95 velocity;
     ghost := Some false;
     accentuated := Some false;
     heavyAccentuated := Some false;
     palmMute := Some false;
     vibrato := Some false;
     harmonic := Some false;
     trill := Some false;
     slide := Some false |}.

End Note.

(** ** src/models/Beat.ts *)

Module Beat.

(** The enum [Duration] is its numeric value at run time. *)
Definition Duration : Type := Z.
Definition WHOLE : Duration := 1.
Definition HALF : Duration := 2.
Definition QUARTER : Duration := 4.
Definition EIGHTH : Duration := 8.
Definition SIXTEENTH : Duration := 16.
Definition THIRTY_SECOND : Duration := 32.

Record t : Type := mk {
  notes : list Note.t;
  duration : Duration;
  dotted : bool;
  tuplet : Z;
  rest : bool;
  text : option jsstring
}.

Definition createBeat (duration : option Duration) : t :=
  {| notes := [];
     duration := default QUARTER duration;
     dotted := false;
     tuplet := 1;
     rest := false;
     text := None |}.

Definition addNoteToBeat (beat : t) (note : Note.t) : t :=
  {| notes := notes beat ++ [note];
     duration := duration beat;
     dotted := dotted beat;
     tuplet := tuplet beat;
     rest := false;
     text := text beat |}.

(** The assignment [beat.rest = value] (as in handlers/fileHandlers.ts). *)
Definition set_rest (beat : t) (value : bool) : t :=
  {| notes := notes beat;
     duration := duration beat;
     dotted := dotted beat;
     tuplet := tuplet beat;
     rest := value;
     text := text beat |}.

(** The assignment [beat.dotted = value]. *)
Definition set_dotted (beat : t) (value : bool) : t :=
  {| notes := notes beat;
     duration := duration beat;
     dotted := value;
     tuplet := tuplet beat;
     rest := rest beat;
     text := text beat |}.

End Beat.

(** ** src/models/Measure.ts *)

Module Measure.

Record TimeSignature : Type := mkTimeSignature {
  numerator : Z;
  denominator : Z
}.

Record KeySignature : Type := mkKeySignature {
  value : Z;
  minor : bool
}.

Record t : Type := mk {
  beats : list Beat.t;
  timeSignature : option TimeSignature;
  keySignature : option KeySignature;
  tempo : option Z;
  marker : option jsstring;
  repeatOpen : option bool;
  repeatClose : option Z
}.

Definition createMeasure : t :=
  {| beats := [];
     timeSignature := None;
     keySignature := None;
     tempo := None;
     marker := None;
     repeatOpen := None;
     repeatClose := None |}.

Definition addBeatToMeasure (measure : t) (beat : Beat.t) : t :=
  {| beats := beats measure ++ [beat];
     timeSignature := timeSignature measure;
     keySignature := keySignature measure;
     tempo := tempo measure;
     marker := marker measure;
     repeatOpen := repeatOpen measure;
     repeatClose := repeatClose measure |}.

Definition setTimeSignature (measure : t) (numerator denominator : Z) : t :=
  {| beats := beats measure;
     timeSignature :=
       Some {| numerator := numerator; denominator := denominator |};
     keySignature := keySignature measure;
     tempo := tempo measure;
     marker := marker measure;
     repeatOpen := repeatOpen measure;
     repeatClose := repeatClose measure |}.

Definition setTempo (measure : t) (tempo_ : Z) : t :=
  {| beats := beats measure;
     timeSignature := timeSignature measure;
     keySignature := keySignature measure;
     tempo := Some tempo_;
     marker := marker measure;
     repeatOpen := repeatOpen measure;
     repeatClose := repeatClose measure |}.

End Measure.

(** ** src/models/Track.ts *)

Module Track.

Record MidiChannel : Type := mkMidiChannel {
  channel : Z;
  effectChannel : Z;
  instrument : Z
}.

Record Tuning : Type := mkTuning { strings : list Z }.

Record Color : Type := mkColor { r : Z; g : Z; b : Z }.

Record t : Type := mk {
  name : jsstring;
  measures : list Measure.t;
  tuning : Tuning;
  midiChannel : MidiChannel;
  color : Color;
  fretCount : Z;
  offset : Z;
  volume : Z;
  balance : Z;
  chorus : Z;
  reverb : Z;
  phaser : Z;
  tremolo : Z
}.

Definition standardTuning : list Z := [64; 59; 55; 50; 45; 40].

(** [stringCount] defaults to 6 when the argument is left out. *)
Definition createTrack (name : jsstring) (stringCount : option Z) : t :=
  let stringCount := default 6 stringCount in
  {| name := name;
     measures := [];
     tuning := {| strings := slice standardTuning 0 stringCount |};
     midiChannel := {| channel := 0; effectChannel := 1; instrument := 25 |};
     color := {| r := 255; g := 0; b := 0 |};
     fretCount := 24;
     offset := 0;
     volume := 13;
     balance := 0;
     chorus := 0;
     reverb := 0;
     phaser := 0;
     tremolo := 0 |}.

Definition addMeasureToTrack (track : t) (measure : Measure.t) : t :=
  {| name := name track;
     measures := measures track ++ [measure];
     tuning := tuning track;
     midiChannel := midiChannel track;
     color := color track;
     fretCount := fretCount track;
     offset := offset track;
     volume := volume track;
     balance := balance track;
     chorus := chorus track;
     reverb := reverb track;
     phaser := phaser track;
     tremolo := tremolo track |}.

Definition setTuning (track : t) (tuning_ : list Z) : t :=
  {| name := name track;
     measures := measures track;
     tuning := {| strings := tuning_ |};
     midiChannel := midiChannel track;
     color := color track;
     fretCount := fretCount track;
     offset := offset track;
     volume := volume track;
     balance := balance track;
     chorus := chorus track;
     reverb := reverb track;
     phaser := phaser track;
     tremolo := tremolo track |}.

End Track.

(** ** src/models/Song.ts *)

Module Song.

Record SongInfo : Type := mkSongInfo {
  title : jsstring;
  subtitle : option jsstring;
  artist : option jsstring;
  album : option jsstring;
  author : option jsstring;
  copyright : option jsstring;
  writer : option jsstring;
  instructions : option jsstring;
  comments : option (list jsstring)
}.

Record t : Type := mk {
  info : SongInfo;
  tracks : list Track.t;
  tempo : Z;
  key : Z;
  measureCount : Z
}.

Definition createSong (title : jsstring) (artist : option jsstring) : t :=
  {| info :=
       {| title := title;
          artist := Some (or_string artist []);
          subtitle := Some [];
          album := Some [];
          author := Some [];
          copyright := Some [];
          writer := Some [];
          instructions := Some [];
          comments := Some [] |};
     tracks := [];
     tempo := 120;
     key := 0;
     measureCount := 0 |}.

Definition addTrackToSong (song : t) (track : Track.t) : t :=
  {| info := info song;
     tracks := tracks song ++ [track];
     tempo := tempo song;
     key := key song;
     measureCount :=
       Z.max (measureCount song)
             (Z.of_nat (length (Track.measures track))) |}.

Definition setTempo (song : t) (tempo_ : Z) : t :=
  {| info := info song;
     tracks := tracks song;
     tempo := tempo_;
     key := key song;
     measureCount := measureCount song |}.

End Song.

(** ** src/writers/GP6Writer.ts *)

Module GP6Writer.

Import BinaryWriter.

Infix ">>" := seq (at level 62, left associativity).

(** [if (c) { body }] *)
Definition when_ (c : bool) (body : method) : method :=
  if c then body else nop.

(** [for (let i = from; i < to; i++) body(i)], with [count] iterations
    left. *)
Fixpoint for_range (i : Z) (count : nat) (body : Z -> method) : method :=
  match count with
  | O => nop
  | S count' => body i >> for_range (i + 1) count' body
  end.

Definition flag (c : bool) (bit flags : Z) : Z :=
  if c then Z.lor flags bit else flags.

Definition durationToValue (duration : Beat.Duration) : Z :=
  if duration =? Beat.WHOLE then 1
  else if duration =? Beat.HALF then 2
  else if duration =? Beat.QUARTER then 4
  else if duration =? Beat.EIGHTH then 8
  else if duration =? Beat.SIXTEENTH then 16
  else if duration =? Beat.THIRTY_SECOND then 32
  else 4.

(** "FICHIER GUITAR PRO v6" *)
Definition magic : jsstring :=
  lit [70; 73; 67; 72; 73; 69; 82; 32; 71; 85; 73; 84; 65; 82; 32;
       80; 82; 79; 32; 118; 54]%nat.

Definition writeHeader : method :=
  writeFixedString magic 31 >> writeInt 6.

Definition writeSongInfo (song : Song.t) : method :=
  let info := Song.info song in
  writeString (Song.title info) >>
  writeString (or_string (Song.subtitle info) []) >>
  writeString (or_string (Song.artist info) []) >>
  writeString (or_string (Song.album info) []) >>
  writeString (or_string (Song.author info) []) >>
  writeString (or_string (Song.copyright info) []) >>
  writeString (or_string (Song.writer info) []) >>
  writeString (or_string (Song.instructions info) []) >>
  let comments := default [] (Song.comments info) in
  writeInt (Z.of_nat (length comments)) >>
  forOf comments writeString.

Definition writeTrack (track : Track.t) : method :=
  writeByte 0 >>
  writeString (Track.name track) >>
  writeInt (Z.of_nat (length (Track.strings (Track.tuning track)))) >>
  forOf (Track.strings (Track.tuning track)) writeInt >>
  writeInt (Track.channel (Track.midiChannel track)) >>
  writeInt (Track.effectChannel (Track.midiChannel track)) >>
  writeInt (Track.instrument (Track.midiChannel track)) >>
  writeInt (Track.volume track) >>
  writeInt (Track.balance track) >>
  writeInt (Track.chorus track) >>
  writeInt (Track.reverb track) >>
  writeInt (Track.phaser track) >>
  writeInt (Track.tremolo track) >>
  writeColor (Track.r (Track.color track)) (Track.g (Track.color track))
             (Track.b (Track.color track)) >>
  writeInt (Track.fretCount track) >>
  writeInt (Track.offset track).

Definition writeTracks (song : Song.t) : method :=
  writeInt (Z.of_nat (length (Song.tracks song))) >>
  forOf (Song.tracks song) writeTrack.

Definition writeNote (note : Note.t) : method :=
  let flags := 0 in
  let flags := flag (truthy_boolean (Note.ghost note)) 0x01 flags in
  let flags := flag (truthy_boolean (Note.accentuated note)) 0x02 flags in
  let flags := flag (truthy_boolean (Note.heavyAccentuated note)) 0x04 flags in
  let flags := flag (truthy_boolean (Note.palmMute note)) 0x08 flags in
  let flags := flag (truthy_boolean (Note.vibrato note)) 0x10 flags in
  let flags := flag (truthy_boolean (Note.harmonic note)) 0x20 flags in
  let flags := flag (truthy_boolean (Note.trill note)) 0x40 flags in
  let flags := flag (truthy_boolean (Note.slide note)) 0x80 flags in
  writeByte flags >>
  writeByte (Note.string note) >>
  writeByte (Note.fret note) >>
  writeByte (Note.velocity note).

Definition writeBeat (beat : Beat.t) : method :=
  let flags := 0 in
  let flags := flag (Beat.dotted beat) 0x01 flags in
  let flags := flag (Beat.rest beat) 0x02 flags in
  let flags := flag (truthy_string (Beat.text beat)) 0x04 flags in
  writeByte flags >>
  writeByte (durationToValue (Beat.duration beat)) >>
  writeInt (Beat.tuplet beat) >>
  when_ (truthy_string (Beat.text beat))
    (writeString (default [] (Beat.text beat))) >>
  writeInt (Z.of_nat (length (Beat.notes beat))) >>
  forOf (Beat.notes beat) writeNote.

Definition writeMeasure (measure : Measure.t) : method :=
  let flags := 0 in
  let flags := flag (truthy_object (Measure.timeSignature measure)) 0x01 flags in
  let flags := flag (truthy_object (Measure.keySignature measure)) 0x02 flags in
  let flags := flag (truthy_string (Measure.marker measure)) 0x04 flags in
  let flags := flag (truthy_boolean (Measure.repeatOpen measure)) 0x08 flags in
  let flags := flag (truthy_number (Measure.repeatClose measure)) 0x10 flags in
  let flags := flag (truthy_number (Measure.tempo measure)) 0x20 flags in
  writeByte flags >>
  match Measure.timeSignature measure with
  | Some timeSignature =>
    writeByte (Measure.numerator timeSignature) >>
    writeByte (Measure.denominator timeSignature)
  | None => nop
  end >>
  match Measure.keySignature measure with
  | Some keySignature =>
    writeSignedByte (Measure.value keySignature) >>
    writeBoolean (Measure.minor keySignature)
  | None => nop
  end >>
  when_ (truthy_string (Measure.marker measure))
    (writeString (default [] (Measure.marker measure))) >>
  when_ (truthy_number (Measure.repeatClose measure))
    (writeByte (default 0 (Measure.repeatClose measure))) >>
  when_ (truthy_number (Measure.tempo measure))
    (writeInt (default 0 (Measure.tempo measure))) >>
  writeInt (Z.of_nat (length (Measure.beats measure))) >>
  forOf (Measure.beats measure) writeBeat.

(** The object literal [{ beats: [] }]. *)
Definition emptyMeasure : Measure.t :=
  {| Measure.beats := [];
     Measure.timeSignature := None;
     Measure.keySignature := None;
     Measure.tempo := None;
     Measure.marker := None;
     Measure.repeatOpen := None;
     Measure.repeatClose := None |}.

Definition writeTrackMeasures (track : Track.t) (measureCount : Z) : method :=
  for_range 0 (Z.to_nat measureCount) (fun i =>
    let measure := default emptyMeasure (array_get (Track.measures track) i) in
    writeMeasure measure).

Definition writeMeasures (song : Song.t) : method :=
  writeInt (Song.measureCount song) >>
  forOf (Song.tracks song) (fun track =>
    writeTrackMeasures track (Song.measureCount song)).

Definition write (song : Song.t) : t -> result Buffer.t := fun w =>
  w <- (writeHeader >> writeSongInfo song >> writeTracks song
          >> writeMeasures song) w;;
  Ok (toBuffer w).

Definition writeGP6File (song : Song.t) : result Buffer.t :=
  w <- BinaryWriter.new default_size;;
  write song w.

End GP6Writer.

(** ** The binary layout, from the format description

    The byte sequences of the format's fields and records, written down
    from the layout description (not from the writer); the theorems below
    compare the writer with them. *)

Module Layout.

(** A 4-byte little-endian two's-complement integer. *)
Definition int32le (v : Z) : list Z :=
  let u := v mod 2 ^ 32 in
  [u mod 256; (u / 2 ^ 8) mod 256; (u / 2 ^ 16) mod 256; (u / 2 ^ 24) mod 256].

(** A signed byte, two's complement. *)
Definition int8 (v : Z) : list Z := [v mod 256].

Definition boolean (b : bool) : list Z := [if b then 1 else 0].

(** A string with a 4-byte length prefix (the length in encoded bytes). *)
Definition prefixed (s : jsstring) : list Z :=
  int32le (Buffer.length (Buffer.from_utf8 s)) ++ Buffer.from_utf8 s.

(** [n] bytes: the encoding cut at [n] bytes, then zeros. *)
Definition fixed (s : jsstring) (n : nat) : list Z :=
  take n (Buffer.from_utf8 s)
    ++ replicate (n - length (Buffer.from_utf8 s))%nat 0.

Definition bit (c : bool) (mask : Z) : Z := if c then mask else 0.

Definition note_flags (n : Note.t) : Z :=
  bit (truthy_boolean (Note.ghost n)) 0x01
  + bit (truthy_boolean (Note.accentuated n)) 0x02
  + bit (truthy_boolean (Note.heavyAccentuated n)) 0x04
  + bit (truthy_boolean (Note.palmMute n)) 0x08
  + bit (truthy_boolean (Note.vibrato n)) 0x10
  + bit (truthy_boolean (Note.harmonic n)) 0x20
  + bit (truthy_boolean (Note.trill n)) 0x40
  + bit (truthy_boolean (Note.slide n)) 0x80.

Definition note_record (n : Note.t) : list Z :=
  [note_flags n; Note.string n; Note.fret n; Note.velocity n].

(** The text of a beat or the marker of a measure counts as present when
    it is a non-empty string. *)
Definition text_payload (o : option jsstring) : list Z :=
  match o with
  | Some (c :: s) => prefixed (c :: s)
  | _ => []
  end.

Definition beat_flags (b : Beat.t) : Z :=
  bit (Beat.dotted b) 0x01
  + bit (Beat.rest b) 0x02
  + bit (truthy_string (Beat.text b)) 0x04.

(** The duration byte is the value of the duration itself; a value that
    is not one of the six durations is written as a quarter note. *)
Definition duration_byte (d : Z) : Z :=
  if existsb (Z.eqb d) [1; 2; 4; 8; 16; 32] then d else 4.

Definition beat_record (b : Beat.t) : list Z :=
  [beat_flags b; duration_byte (Beat.duration b)]
    ++ int32le (Beat.tuplet b)
    ++ text_payload (Beat.text b)
    ++ int32le (Z.of_nat (length (Beat.notes b)))
    ++ concat (map note_record (Beat.notes b)).

Definition time_payload (o : option Measure.TimeSignature) : list Z :=
  match o with
  | Some ts => [Measure.numerator ts; Measure.denominator ts]
  | None => []
  end.

Definition key_payload (o : option Measure.KeySignature) : list Z :=
  match o with
  | Some ks => int8 (Measure.value ks) ++ boolean (Measure.minor ks)
  | None => []
  end.

(** A repeat-close count and a tempo override count as present when they
    are non-zero. *)
Definition count_payload (o : option Z) : list Z :=
  match o with
  | Some n => if n =? 0 then [] else [n]
  | None => []
  end.

Definition tempo_payload (o : option Z) : list Z :=
  match o with
  | Some n => if n =? 0 then [] else int32le n
  | None => []
  end.

Definition measure_flags (m : Measure.t) : Z :=
  bit (truthy_object (Measure.timeSignature m)) 0x01
  + bit (truthy_object (Measure.keySignature m)) 0x02
  + bit (truthy_string (Measure.marker m)) 0x04
  + bit (truthy_boolean (Measure.repeatOpen m)) 0x08
  + bit (truthy_number (Measure.repeatClose m)) 0x10
  + bit (truthy_number (Measure.tempo m)) 0x20.

Definition measure_record (m : Measure.t) : list Z :=
  [measure_flags m]
    ++ time_payload (Measure.timeSignature m)
    ++ key_payload (Measure.keySignature m)
    ++ text_payload (Measure.marker m)
    ++ count_payload (Measure.repeatClose m)
    ++ tempo_payload (Measure.tempo m)
    ++ int32le (Z.of_nat (length (Measure.beats m)))
    ++ concat (map beat_record (Measure.beats m)).

(** The record of a measure as the format description words it: a field
    is present when it is defined, whatever its value. *)
Definition presence_flags (m : Measure.t) : Z :=
  bit (truthy_object (Measure.timeSignature m)) 0x01
  + bit (truthy_object (Measure.keySignature m)) 0x02
  + bit (truthy_object (Measure.marker m)) 0x04
  + bit (truthy_boolean (Measure.repeatOpen m)) 0x08
  + bit (truthy_object (Measure.repeatClose m)) 0x10
  + bit (truthy_object (Measure.tempo m)) 0x20.

Definition presence_record (m : Measure.t) : list Z :=
  [presence_flags m]
    ++ time_payload (Measure.timeSignature m)
    ++ key_payload (Measure.keySignature m)
    ++ from_option prefixed [] (Measure.marker m)
    ++ from_option (fun n => [n]) [] (Measure.repeatClose m)
    ++ from_option int32le [] (Measure.tempo m)
    ++ int32le (Z.of_nat (length (Measure.beats m)))
    ++ concat (map beat_record (Measure.beats m)).

(** The measures a track contributes to a table of [count] measures:
    its own, in order, then empty ones for the missing trailing ones. *)
Definition padded (measures : list Measure.t) (count : nat)
  : list Measure.t :=
  take count measures
    ++ replicate (count - length measures)%nat GP6Writer.emptyMeasure.

End Layout.

(** ** Values that fit their fields *)

Definition fits_byte (v : Z) : Prop := 0 <= v <= 255.
Definition fits_int8 (v : Z) : Prop := -128 <= v <= 127.
Definition fits_int32 (v : Z) : Prop := -2147483648 <= v <= 2147483647.
Definition fits_string (s : jsstring) : Prop :=
  fits_int32 (Buffer.length (Buffer.from_utf8 s)).

Definition fits_note (n : Note.t) : Prop :=
  fits_byte (Note.string n) /\ fits_byte (Note.fret n)
  /\ fits_byte (Note.velocity n).

Definition fits_beat (b : Beat.t) : Prop :=
  fits_int32 (Beat.tuplet b)
  /\ fits_string (default [] (Beat.text b))
  /\ fits_int32 (Z.of_nat (length (Beat.notes b)))
  /\ Forall fits_note (Beat.notes b).

Definition fits_measure (m : Measure.t) : Prop :=
  from_option (fun ts => fits_byte (Measure.numerator ts)
                           /\ fits_byte (Measure.denominator ts))
              True (Measure.timeSignature m)
  /\ from_option (fun ks => fits_int8 (Measure.value ks))
                 True (Measure.keySignature m)
  /\ fits_string (default [] (Measure.marker m))
  /\ fits_byte (default 0 (Measure.repeatClose m))
  /\ fits_int32 (default 0 (Measure.tempo m))
  /\ fits_int32 (Z.of_nat (length (Measure.beats m)))
  /\ Forall fits_beat (Measure.beats m).

(** ** Writers in a sound state, and what a method emits *)

(** The cursor lies within the backing storage. *)
Definition wf (w : BinaryWriter.t) : Prop :=
  0 <= BinaryWriter.position w
  <= Buffer.length (BinaryWriter.buffer w).

(** [emits m bs]: from every sound writer, the method [m] returns, leaves
    the writer sound, and appends exactly [bs] to the written bytes. *)
Definition emits (m : BinaryWriter.method) (bs : list Z) : Prop :=
  forall w, wf w ->
    exists w', m w = Ok w' /\ wf w'
      /\ BinaryWriter.toBuffer w' = BinaryWriter.toBuffer w ++ bs.

(** [writes m bs]: whenever [m] returns from a sound writer, it has left
    the writer sound and appended exactly [bs] to the written bytes. *)
Definition writes (m : BinaryWriter.method) (bs : list Z) : Prop :=
  forall w w', wf w -> m w = Ok w' ->
    wf w' /\ BinaryWriter.toBuffer w' = BinaryWriter.toBuffer w ++ bs.

(** Overwriting [chunk] into [buf] from index [pos]. *)
Definition splice (buf : list Z) (pos : nat) (chunk : list Z) : list Z :=
  take pos buf ++ chunk ++ drop (pos + length chunk) buf.

(** The songs built from [createSong] by attaching tracks and setting the
    tempo. *)
Inductive built : Song.t -> Prop :=
| built_create title artist : built (Song.createSong title artist)
| built_addTrack song track :
    built song -> built (Song.addTrackToSong song track)
| built_setTempo song tempo :
    built song -> built (Song.setTempo song tempo).

(** The largest measure-sequence length over a list of tracks. *)
Definition max_measures (tracks : list Track.t) : Z :=
  foldr (fun track m => Z.max (Z.of_nat (length (Track.measures track))) m)
        0 tracks.

(** ** Sample values *)

Module Sample.

(** [new BinaryWriter(0)] *)
Definition writer : BinaryWriter.t :=
  {| BinaryWriter.buffer := []; BinaryWriter.position := 0 |}.

(** "test", "hi", "hello world", "Guitar" *)
Definition test : jsstring := lit [116; 101; 115; 116]%nat.
Definition hi : jsstring := lit [104; 105]%nat.
Definition hello_world : jsstring :=
  lit [104; 101; 108; 108; 111; 32; 119; 111; 114; 108; 100]%nat.
Definition guitar : jsstring := lit [71; 117; 105; 116; 97; 114]%nat.

(** A string of 256 letters "A". *)
Definition long_text : jsstring := replicate 256 65.

(** A measure in 4/4 *)
Definition common_time : Measure.t :=
  Measure.setTimeSignature Measure.createMeasure 4 4.

(** A measure whose marker is the empty string. *)
Definition marked_empty : Measure.t :=
  {| Measure.beats := [];
     Measure.timeSignature := None;
     Measure.keySignature := None;
     Measure.tempo := None;
     Measure.marker := Some [];
     Measure.repeatOpen := None;
     Measure.repeatClose := None |}.

(** A measure with every optional field set. *)
Definition full_measure : Measure.t :=
  {| Measure.beats := [];
     Measure.timeSignature :=
       Some {| Measure.numerator := 3; Measure.denominator := 4 |};
     Measure.keySignature :=
       Some {| Measure.value := -1; Measure.minor := true |};
     Measure.tempo := Some 90;
     Measure.marker := Some hi;
     Measure.repeatOpen := Some true;
     Measure.repeatClose := Some 2 |}.

(** A quarter-note beat with one note, marked as a rest afterwards. *)
Definition rest_with_note : Beat.t :=
  Beat.set_rest
    (Beat.addNoteToBeat (Beat.createBeat None) (Note.createNote 5 1 None))
    true.

(** Tracks of two and of four measures, and the song of both. *)
Definition two_measures : Track.t :=
  Track.addMeasureToTrack
    (Track.addMeasureToTrack (Track.createTrack guitar None) common_time)
    common_time.

Definition four_measures : Track.t :=
  Track.addMeasureToTrack
    (Track.addMeasureToTrack two_measures common_time) common_time.

Definition two_tracks : Song.t :=
  Song.addTrackToSong
    (Song.addTrackToSong (Song.createSong test None) two_measures)
    four_measures.

End Sample.

(** ** Reading a buffer back

    Node's [readInt8] and [readInt32LE], with which the repository's
    tests decode what the writer wrote. *)

Module BufferRead.

(** [buf.readInt8(offset)] *)
Definition readInt8 (buf : list Z) (offset : Z) : result Z :=
  match array_get buf offset with
  | Some value => Ok (if value <? 128 then value else value - 256)
  | None => Throw ERR_BUFFER_OUT_OF_BOUNDS
  end.

(** [buf.readInt32LE(offset)]: the last byte carries the sign. *)
Definition readInt32LE (buf : list Z) (offset : Z) : result Z :=
  match array_get buf offset, array_get buf (offset + 1),
        array_get buf (offset + 2), array_get buf (offset + 3) with
  | Some first, Some second, Some third, Some last =>
    Ok (first + second * 2 ^ 8 + third * 2 ^ 16
        + (if last <? 128 then last * 2 ^ 24 else last * 2 ^ 24 - 2 ^ 32))
  | _, _, _, _ => Throw ERR_BUFFER_OUT_OF_BOUNDS
  end.

End BufferRead.

(** ** The layout of the whole file, from the format description *)

Module Document.

(** An optional text is written as the empty string when it is missing. *)
Definition optional (o : option jsstring) : list Z :=
  Layout.prefixed (default [] o).

Definition header : list Z :=
  Layout.fixed GP6Writer.magic 31 ++ Layout.int32le 6.

Definition info_record (info : Song.SongInfo) : list Z :=
  Layout.prefixed (Song.title info)
    ++ optional (Song.subtitle info)
    ++ optional (Song.artist info)
    ++ optional (Song.album info)
    ++ optional (Song.author info)
    ++ optional (Song.copyright info)
    ++ optional (Song.writer info)
    ++ optional (Song.instructions info)
    ++ Layout.int32le (Z.of_nat (length (default [] (Song.comments info))))
    ++ concat (map Layout.prefixed (default [] (Song.comments info))).

Definition track_record (track : Track.t) : list Z :=
  [0]
    ++ Layout.prefixed (Track.name track)
    ++ Layout.int32le (Z.of_nat (length (Track.strings (Track.tuning track))))
    ++ concat (map Layout.int32le (Track.strings (Track.tuning track)))
    ++ Layout.int32le (Track.channel (Track.midiChannel track))
    ++ Layout.int32le (Track.effectChannel (Track.midiChannel track))
    ++ Layout.int32le (Track.instrument (Track.midiChannel track))
    ++ Layout.int32le (Track.volume track)
    ++ Layout.int32le (Track.balance track)
    ++ Layout.int32le (Track.chorus track)
    ++ Layout.int32le (Track.reverb track)
    ++ Layout.int32le (Track.phaser track)
    ++ Layout.int32le (Track.tremolo track)
    ++ [Track.r (Track.color track); Track.g (Track.color track);
        Track.b (Track.color track); 0]
    ++ Layout.int32le (Track.fretCount track)
    ++ Layout.int32le (Track.offset track).

Definition track_table (song : Song.t) : list Z :=
  Layout.int32le (Z.of_nat (length (Song.tracks song)))
    ++ concat (map track_record (Song.tracks song)).

(** The measures of a track that reach the file. *)
Definition written_measures (song : Song.t) (track : Track.t)
  : list Measure.t :=
  Layout.padded (Track.measures track) (Z.to_nat (Song.measureCount song)).

Definition measure_table (song : Song.t) : list Z :=
  Layout.int32le (Song.measureCount song)
    ++ concat (map (fun track =>
         concat (map Layout.measure_record (written_measures song track)))
         (Song.tracks song)).

Definition file (song : Song.t) : list Z :=
  header ++ info_record (Song.info song) ++ track_table song
    ++ measure_table song.

End Document.

Definition fits_info (info : Song.SongInfo) : Prop :=
  fits_string (Song.title info)
  /\ fits_string (default [] (Song.subtitle info))
  /\ fits_string (default [] (Song.artist info))
  /\ fits_string (default [] (Song.album info))
  /\ fits_string (default [] (Song.author info))
  /\ fits_string (default [] (Song.copyright info))
  /\ fits_string (default [] (Song.writer info))
  /\ fits_string (default [] (Song.instructions info))
  /\ fits_int32 (Z.of_nat (length (default [] (Song.comments info))))
  /\ Forall fits_string (default [] (Song.comments info)).

Definition fits_track (track : Track.t) : Prop :=
  fits_string (Track.name track)
  /\ fits_int32 (Z.of_nat (length (Track.strings (Track.tuning track))))
  /\ Forall fits_int32 (Track.strings (Track.tuning track))
  /\ fits_int32 (Track.channel (Track.midiChannel track))
  /\ fits_int32 (Track.effectChannel (Track.midiChannel track))
  /\ fits_int32 (Track.instrument (Track.midiChannel track))
  /\ fits_int32 (Track.volume track)
  /\ fits_int32 (Track.balance track)
  /\ fits_int32 (Track.chorus track)
  /\ fits_int32 (Track.reverb track)
  /\ fits_int32 (Track.phaser track)
  /\ fits_int32 (Track.tremolo track)
  /\ fits_byte (Track.r (Track.color track))
  /\ fits_byte (Track.g (Track.color track))
  /\ fits_byte (Track.b (Track.color track))
  /\ fits_int32 (Track.fretCount track)
  /\ fits_int32 (Track.offset track).

Definition fits_song (song : Song.t) : Prop :=
  fits_info (Song.info song)
  /\ fits_int32 (Z.of_nat (length (Song.tracks song)))
  /\ Forall fits_track (Song.tracks song)
  /\ fits_int32 (Song.measureCount song)
  /\ Forall (fun track =>
              Forall fits_measure (Document.written_measures song track))
            (Song.tracks song).

(** [guards m P]: [m] returns from a sound writer only when [P] holds. *)
Definition guards (m : BinaryWriter.method) (P : Prop) : Prop :=
  forall w w', wf w -> m w = Ok w' -> P.

(** [meets m bs P]: [m] returns from a sound writer exactly when [P]
    holds, and then it has appended exactly [bs]. *)
Definition meets (m : BinaryWriter.method) (bs : list Z) (P : Prop) : Prop :=
  (P -> emits m bs) /\ writes m bs /\ guards m P.

(** The public calls of the writer, with non-negative counts. *)
Inductive call : BinaryWriter.method -> Prop :=
| call_writeByte v : call (BinaryWriter.writeByte v)
| call_writeSignedByte v : call (BinaryWriter.writeSignedByte v)
| call_writeInt v : call (BinaryWriter.writeInt v)
| call_writeBoolean b : call (BinaryWriter.writeBoolean b)
| call_writeString s : call (BinaryWriter.writeString s)
| call_writeByteString s : call (BinaryWriter.writeByteString s)
| call_writeFixedString s (n : nat) :
    call (BinaryWriter.writeFixedString s (Z.of_nat n))
| call_writeBytes bytes : call (BinaryWriter.writeBytes bytes)
| call_writeColor r g b : call (BinaryWriter.writeColor r g b)
| call_skip (n : nat) : call (BinaryWriter.skip (Z.of_nat n)).

(** ** src/handlers/fileHandlers.ts

    The part of [createGuitarProFile] that computes the file name, the
    song and its bytes; resolving the directory, creating it and writing
    the file are outside the model. *)

Module FileHandlers.

Record NoteData : Type := mkNoteData {
  string : Z;
  fret : Z;
  velocity : option Z
}.

Record BeatData : Type := mkBeatData {
  duration : option Z;
  dotted : option bool;
  rest : option bool;
  notes : option (list NoteData)
}.

Record MeasureData : Type := mkMeasureData {
  timeSignature : option Measure.TimeSignature;
  beats : option (list BeatData)
}.

Record TrackData : Type := mkTrackData {
  name : jsstring;
  strings : option Z;
  tuning : option (list Z);
  measures : list MeasureData
}.

Record CreateGuitarProFileArgs : Type := mkArgs {
  filename : jsstring;
  outputDirectory : option jsstring;
  title : jsstring;
  artist : option jsstring;
  tempo : option Z;
  tracks : list TrackData
}.

(** [o || d] on an optional number. *)
Definition or_number (o : option Z) (d : Z) : Z :=
  match o with
  | Some n => if n =? 0 then d else n
  | None => d
  end.

(** [s.endsWith(suffix)] *)
Definition endsWith (s suffix : jsstring) : bool :=
  (length suffix <=? length s)%nat
  && bool_decide (drop (length s - length suffix) s = suffix).

(** ".gp6" *)
Definition extension : jsstring := lit [46; 103; 112; 54]%nat.

Definition finalFilename (filename : jsstring) : jsstring :=
  if endsWith filename extension then filename else filename ++ extension.

(** The [note] made for one element of [beatData.notes]. *)
Definition note (noteData : NoteData) : Note.t :=
  Note.createNote (fret noteData) (string noteData)
                  (Some (or_number (velocity noteData) 95)).

(** The [beat] made for one element of [measureData.beats], when it is
    added to the measure. *)
Definition beat (beatData : BeatData) : Beat.t :=
  let beat := Beat.createBeat (Some (or_number (duration beatData)
                                                Beat.QUARTER)) in
  let beat :=
    if truthy_boolean (dotted beatData) then Beat.set_dotted beat true
    else beat in
  let beat :=
    if truthy_boolean (rest beatData) then Beat.set_rest beat true
    else beat in
  match notes beatData with
  | Some notes =>
    fold_left (fun beat noteData => Beat.addNoteToBeat beat (note noteData))
              notes beat
  | None => beat
  end.

(** The [measure] made for one element of [trackData.measures]. *)
Definition measure (measureData : MeasureData) : Measure.t :=
  let measure := Measure.createMeasure in
  let measure :=
    match timeSignature measureData with
    | Some ts =>
      Measure.setTimeSignature measure (Measure.numerator ts)
                               (Measure.denominator ts)
    | None => measure
    end in
  match beats measureData with
  | Some beats =>
    fold_left (fun measure beatData =>
                 Measure.addBeatToMeasure measure (beat beatData))
              beats measure
  | None => measure
  end.

(** The [track] made for one element of [tracksData]. *)
Definition track (trackData : TrackData) : Track.t :=
  let track :=
    Track.createTrack (name trackData)
                      (Some (or_number (strings trackData) 6)) in
  let track :=
    match tuning trackData with
    | Some tuning => Track.setTuning track tuning
    | None => track
    end in
  fold_left (fun track measureData =>
               Track.addMeasureToTrack track (measure measureData))
            (measures trackData) track.

(** The song that [createGuitarProFile] builds and returns. *)
Definition song (args : CreateGuitarProFileArgs) : Song.t :=
  let song := Song.createSong (title args) (artist args) in
  let song := Song.setTempo song (default 120 (tempo args)) in
  fold_left (fun song trackData => Song.addTrackToSong song (track trackData))
            (tracks args) song.

(** The file name and the bytes that [createGuitarProFile] hands to
    [fs.writeFile], with the song it returns. *)
Definition createGuitarProFile (args : CreateGuitarProFileArgs)
  : result (jsstring * Song.t * list Z) :=
  buffer <- GP6Writer.writeGP6File (song args);;
  Ok (finalFilename (filename args), song args, buffer).

End FileHandlers.

(** ** More sample values *)

Module Example.

(** "cafe" with an acute accent on the e: four code units, five bytes. *)
Definition cafe : jsstring := [99; 97; 102; 233].

(** The calls of the test "should handle mixed data types". *)
Definition mixed_calls : list BinaryWriter.method :=
  [BinaryWriter.writeByte 1; BinaryWriter.writeInt 1000;
   BinaryWriter.writeBoolean true; BinaryWriter.writeString Sample.test;
   BinaryWriter.writeColor 255 0 0].

Definition mixed_written : BinaryWriter.t :=
  {| BinaryWriter.buffer :=
       [1; 232; 3; 0; 0; 1; 4; 0; 0; 0; 116; 101; 115; 116; 255; 0; 0;
        0; 0; 0];
     BinaryWriter.position := 18 |}.

(** A writer with three bytes written and stale bytes after the cursor. *)
Definition stale : BinaryWriter.t :=
  {| BinaryWriter.buffer := [1; 2; 3; 9; 9]; BinaryWriter.position := 3 |}.

(** A note played palm-muted with a slide, and one beyond the byte
    range of the fret field. *)
Definition muted_slide : Note.t :=
  {| Note.fret := 5; Note.string := 1; Note.velocity := 95;
     Note.ghost := Some false; Note.accentuated := None;
     Note.heavyAccentuated := None; Note.palmMute := Some true;
     Note.vibrato := None; Note.harmonic := None; Note.trill := None;
     Note.slide := Some true |}.

Definition fret_300 : Note.t := Note.createNote 300 1 None.

(** A rest: a beat without notes whose rest flag is set. *)
Definition rest_beat : Beat.t := Beat.set_rest (Beat.createBeat None) true.

(** A measure whose time signature does not fit a byte. *)
Definition wide_measure : Measure.t :=
  Measure.setTimeSignature Measure.createMeasure 300 4.

(** [createTrack('Bass', 4)] *)
Definition bass : Track.t :=
  Track.createTrack (lit [66; 97; 115; 115]%nat) (Some 4).

(** The song of the end-to-end test: "Test", one track "Guitar", one
    measure in 4/4 with one quarter note (fret 5, string 1). *)
Definition end_to_end : Song.t :=
  Song.addTrackToSong (Song.createSong Sample.test None)
    (Track.addMeasureToTrack (Track.createTrack Sample.guitar None)
       (Measure.addBeatToMeasure Sample.common_time
          (Beat.addNoteToBeat (Beat.createBeat (Some Beat.QUARTER))
             (Note.createNote 5 1 None)))).

(** "song", "song.gp6" and "song.GP6" *)
Definition song_name : jsstring := lit [115; 111; 110; 103]%nat.
Definition song_gp6 : jsstring :=
  lit [115; 111; 110; 103; 46; 103; 112; 54]%nat.
Definition song_GP6 : jsstring :=
  lit [115; 111; 110; 103; 46; 71; 80; 54]%nat.

(** A beat asked for as a dotted rest of unknown duration 0, with two
    notes, one of velocity 0. *)
Definition rest_with_notes : FileHandlers.BeatData :=
  {| FileHandlers.duration := Some 0;
     FileHandlers.dotted := Some true;
     FileHandlers.rest := Some true;
     FileHandlers.notes :=
       Some [ {| FileHandlers.string := 1; FileHandlers.fret := 3;
                 FileHandlers.velocity := Some 0 |};
              {| FileHandlers.string := 2; FileHandlers.fret := 5;
                 FileHandlers.velocity := Some 80 |} ] |}.

(** Two tracks: a four-string bass with one measure, and a track asked
    for with 0 strings and two measures. *)
Definition two_track_args : FileHandlers.CreateGuitarProFileArgs :=
  {| FileHandlers.filename := song_name;
     FileHandlers.outputDirectory := None;
     FileHandlers.title := Sample.test;
     FileHandlers.artist := None;
     FileHandlers.tempo := None;
     FileHandlers.tracks :=
       [ {| FileHandlers.name := lit [66; 97; 115; 115]%nat;
            FileHandlers.strings := Some 4;
            FileHandlers.tuning := Some [43; 38; 33; 28];
            FileHandlers.measures :=
              [ {| FileHandlers.timeSignature := None;
                   FileHandlers.beats := Some [rest_with_notes] |} ] |};
         {| FileHandlers.name := Sample.guitar;
            FileHandlers.strings := Some 0;
            FileHandlers.tuning := None;
            FileHandlers.measures :=
              [ {| FileHandlers.timeSignature := None;
                   FileHandlers.beats := None |};
                {| FileHandlers.timeSignature := None;
                   FileHandlers.beats := None |} ] |} ] |}.

End Example.

(** * Proofs *)

(** ** Lists *)

Lemma splice_length (buf : list Z) pos chunk :
  (pos + length chunk <= length buf)%nat ->
  length (splice buf pos chunk) = length buf.
Proof.
  intros H. unfold splice.
  rewrite !length_app, length_take, length_drop. lia.
Qed.

Lemma splice_take (buf : list Z) pos chunk :
  (pos <= length buf)%nat ->
  take (pos + length chunk) (splice buf pos chunk) = take pos buf ++ chunk.
Proof.
  intros H. unfold splice.
  rewrite app_assoc.
  rewrite take_app_length'; [done|].
  rewrite length_app, length_take. lia.
Qed.

Lemma splice_nil (buf : list Z) pos : splice buf pos [] = buf.
Proof.
  unfold splice. simpl. rewrite Nat.add_0_r. apply take_drop.
Qed.

Lemma splice_splice (buf : list Z) pos a b :
  (pos + length a + length b <= length buf)%nat ->
  splice (splice buf pos a) (pos + length a) b = splice buf pos (a ++ b).
Proof.
  intros H. unfold splice at 1.
  rewrite splice_take by lia.
  unfold splice.
  rewrite <- !(assoc (++)). do 2 f_equal.
  rewrite length_app.
  rewrite drop_app_ge; rewrite ?length_take; [|lia].
  rewrite drop_app_ge; [|lia].
  rewrite drop_drop. do 2 f_equal. lia.
Qed.

Lemma splice_splice_at (buf : list Z) pos a n b :
  n = (pos + length a)%nat ->
  (pos + length a + length b <= length buf)%nat ->
  splice (splice buf pos a) n b = splice buf pos (a ++ b).
Proof. intros ->. apply splice_splice. Qed.

Lemma splice_insert (buf : list Z) (i : nat) v :
  (i < length buf)%nat -> <[i:=v]> buf = splice buf i [v].
Proof.
  intros H. unfold splice. simpl.
  rewrite insert_take_drop by done. do 3 f_equal. lia.
Qed.

(** ** Node's Buffer *)

(** Case analysis on the integer comparisons of the goal. *)
Ltac zcases :=
  repeat match goal with
  | |- context [?a >? ?b] => rewrite (Z.gtb_ltb a b)
  | |- context [?a >=? ?b] => rewrite (Z.geb_leb a b)
  | |- context [?a <? ?b] => destruct (Z.ltb_spec a b)
  | |- context [?a <=? ?b] => destruct (Z.leb_spec a b)
  | |- context [?a =? ?b] => destruct (Z.eqb_spec a b)
  end; simpl; try lia; try reflexivity.

Lemma Buffer_length_nonneg (b : Buffer.t) : 0 <= Buffer.length b.
Proof. unfold Buffer.length. lia. Qed.

Lemma Buffer_set_splice (buf : Buffer.t) i v :
  0 <= i < Buffer.length buf ->
  Buffer.set buf i v = splice buf (Z.to_nat i) [v mod 256].
Proof.
  intros H. unfold Buffer.set, Buffer.length in *. zcases.
  apply splice_insert. lia.
Qed.

Lemma Buffer_copy_splice (bytes buf : Buffer.t) pos n :
  0 <= pos -> 0 <= n <= Buffer.length bytes ->
  pos + n <= Buffer.length buf ->
  Buffer.copy bytes buf pos 0 n
  = Ok (splice buf (Z.to_nat pos) (take (Z.to_nat n) bytes)).
Proof.
  intros Hpos Hn Hfit. unfold Buffer.copy.
  pose proof (Buffer_length_nonneg bytes).
  unfold Buffer.length in *. zcases.
  - replace (Z.to_nat n) with O by lia.
    rewrite take_0, splice_nil. done.
  - replace (Z.to_nat n) with O by lia.
    rewrite take_0, splice_nil. done.
  - unfold splice. rewrite drop_0, length_take.
    rewrite Z.sub_0_r, Z.min_l by lia.
    do 4 f_equal. lia.
Qed.

Lemma Buffer_copy_negative (bytes buf : Buffer.t) pos n :
  0 <= pos -> n < 0 ->
  Buffer.copy bytes buf pos 0 n = Throw (ERR_OUT_OF_RANGE n).
Proof.
  intros Hpos Hn. unfold Buffer.copy.
  pose proof (Buffer_length_nonneg bytes).
  unfold Buffer.length in *. zcases.
Qed.

Lemma Buffer_writeUInt8_splice (buf : Buffer.t) v o :
  fits_byte v -> 0 <= o < Buffer.length buf ->
  Buffer.writeUInt8 buf v o = Ok (splice buf (Z.to_nat o) [v]).
Proof.
  intros Hv Ho. unfold Buffer.writeUInt8, fits_byte in *.
  rewrite Buffer_set_splice by done.
  rewrite Z.mod_small by lia. zcases.
Qed.

Lemma Buffer_writeUInt8_range (buf : Buffer.t) v o :
  ~ fits_byte v -> Buffer.writeUInt8 buf v o = Throw (ERR_OUT_OF_RANGE v).
Proof.
  intros Hv. unfold Buffer.writeUInt8, fits_byte in *. zcases.
Qed.

Lemma Buffer_writeInt8_splice (buf : Buffer.t) v o :
  fits_int8 v -> 0 <= o < Buffer.length buf ->
  Buffer.writeInt8 buf v o = Ok (splice buf (Z.to_nat o) (Layout.int8 v)).
Proof.
  intros Hv Ho. unfold Buffer.writeInt8, fits_int8 in *.
  rewrite Buffer_set_splice by done. zcases.
Qed.

Lemma Buffer_writeInt8_range (buf : Buffer.t) v o :
  ~ fits_int8 v -> Buffer.writeInt8 buf v o = Throw (ERR_OUT_OF_RANGE v).
Proof.
  intros Hv. unfold Buffer.writeInt8, fits_int8 in *. zcases.
Qed.

Lemma Buffer_writeInt32LE_range (buf : Buffer.t) v o :
  ~ fits_int32 v -> Buffer.writeInt32LE buf v o = Throw (ERR_OUT_OF_RANGE v).
Proof.
  intros Hv. unfold Buffer.writeInt32LE, fits_int32 in *. zcases.
Qed.

Lemma Buffer_set_length (buf : Buffer.t) i v :
  Buffer.length (Buffer.set buf i v) = Buffer.length buf.
Proof.
  unfold Buffer.set, Buffer.length.
  destruct (_ && _); [|done]. by rewrite length_insert.
Qed.

Lemma Buffer_writeInt32LE_splice (buf : Buffer.t) v o :
  fits_int32 v -> 0 <= o -> o + 4 <= Buffer.length buf ->
  Buffer.writeInt32LE buf v o
  = Ok (splice buf (Z.to_nat o) (Layout.int32le v)).
Proof.
  intros Hv Ho Hfit. unfold Buffer.writeInt32LE, fits_int32 in *.
  zcases. f_equal.
  rewrite (Buffer_set_splice buf) by lia.
  rewrite (Buffer_set_splice _ (o + 1))
    by (unfold Buffer.length in *; rewrite splice_length; simpl; lia).
  unfold Buffer.length in *.
  rewrite splice_splice_at by (simpl; lia).
  rewrite (Buffer_set_splice _ (o + 2))
    by (unfold Buffer.length; rewrite splice_length; simpl; lia).
  rewrite splice_splice_at by (simpl; lia).
  rewrite (Buffer_set_splice _ (o + 3))
    by (unfold Buffer.length; rewrite splice_length; simpl; lia).
  rewrite splice_splice_at by (simpl; lia).
  simpl. unfold Layout.int32le.
  rewrite !Z.shiftr_div_pow2 by lia.
  rewrite !Z.div_div by lia.
  reflexivity.
Qed.

(** ** The byte buffer *)

Import BinaryWriter.

Lemma toBuffer_take (w : BinaryWriter.t) :
  wf w -> toBuffer w = take (Z.to_nat (position w)) (buffer w).
Proof.
  intros [H0 H1]. unfold toBuffer, Buffer.subarray, slice, relative.
  unfold Buffer.length in *. zcases.
  rewrite (Z.min_l 0), (Z.min_l (position w)) by lia.
  rewrite drop_0. f_equal. lia.
Qed.

Lemma ensureCapacity_keeps (w : BinaryWriter.t) n :
  position w + n <= Buffer.length (buffer w) -> ensureCapacity n w = Ok w.
Proof. intros H. unfold ensureCapacity. zcases. Qed.

Lemma ensureCapacity_grows (w : BinaryWriter.t) n :
  Buffer.length (buffer w) < position w + n ->
  ensureCapacity n w
  = Ok {| buffer :=
            buffer w
              ++ replicate
                   (Z.to_nat (Z.max (position w + n)
                                    (Buffer.length (buffer w) * 2)
                              - Buffer.length (buffer w))) 0;
          position := position w |}.
Proof.
  intros H. unfold ensureCapacity.
  pose proof (Buffer_length_nonneg (buffer w)) as Hlen.
  destruct (Z.gtb_spec (position w + n) (Buffer.length (buffer w)));
    [|lia].
  rewrite Buffer_copy_splice.
  - simpl. do 2 f_equal. unfold splice, Buffer.alloc, Buffer.length in *.
    rewrite Nat2Z.id, firstn_all. simpl.
    rewrite drop_replicate. do 2 f_equal. lia.
  - lia.
  - lia.
  - unfold Buffer.alloc, Buffer.length in *. rewrite length_replicate. lia.
Qed.

Lemma ensureCapacity_ok (w : BinaryWriter.t) n :
  wf w -> 0 <= n ->
  exists w1, ensureCapacity n w = Ok w1
    /\ position w1 = position w
    /\ position w + n <= Buffer.length (buffer w1)
    /\ take (Z.to_nat (position w)) (buffer w1)
       = take (Z.to_nat (position w)) (buffer w).
Proof.
  intros [H0 H1] Hn.
  destruct (Z_le_gt_dec (position w + n) (Buffer.length (buffer w))).
  - exists w. rewrite ensureCapacity_keeps by done. done.
  - eexists. rewrite ensureCapacity_grows by lia.
    split; [done|]. simpl. split; [done|].
    unfold Buffer.length in *. split.
    + rewrite length_app, length_replicate. lia.
    + rewrite take_app_le by lia. done.
Qed.

(** Overwriting a chunk at the cursor of a writer that has room for it,
    and moving the cursor past it, appends the chunk. *)
Lemma advance (w w1 : BinaryWriter.t) chunk :
  wf w ->
  position w1 = position w ->
  position w + Buffer.length chunk <= Buffer.length (buffer w1) ->
  take (Z.to_nat (position w)) (buffer w1)
  = take (Z.to_nat (position w)) (buffer w) ->
  let w' := {| buffer := splice (buffer w1) (Z.to_nat (position w1)) chunk;
               position := position w1 + Buffer.length chunk |} in
  wf w' /\ toBuffer w' = toBuffer w ++ chunk.
Proof.
  intros Hwf Hpos Hfit Htake w'.
  assert (wf w') as Hwf'.
  { destruct Hwf. subst w'. unfold wf, Buffer.length in *. simpl.
    rewrite splice_length by lia. lia. }
  split; [done|].
  rewrite !toBuffer_take by done. subst w'. simpl.
  destruct Hwf. unfold Buffer.length in *.
  rewrite Hpos, Z2Nat.inj_add, Nat2Z.id by lia.
  rewrite splice_take by lia. by rewrite Htake.
Qed.

(** A method that makes room for a chunk and overwrites it at the
    cursor emits the chunk. *)
Lemma emits_chunk (m : method) chunk :
  (forall w1, 0 <= position w1 ->
     position w1 + Buffer.length chunk <= Buffer.length (buffer w1) ->
     forall w, ensureCapacity (Buffer.length chunk) w = Ok w1 ->
     m w = Ok {| buffer := splice (buffer w1) (Z.to_nat (position w1)) chunk;
                 position := position w1 + Buffer.length chunk |}) ->
  emits m chunk.
Proof.
  intros Hm w Hwf.
  destruct (ensureCapacity_ok w (Buffer.length chunk) Hwf
              (Buffer_length_nonneg chunk)) as (w1 & He & Hpos & Hfit & Htake).
  eexists. split.
  - apply (Hm w1); [destruct Hwf; lia | lia | done].
  - by apply advance.
Qed.

Lemma emits_writeByte v : fits_byte v -> emits (writeByte v) [v].
Proof.
  intros Hv. apply emits_chunk. intros w1 H0 H1 w He.
  unfold writeByte. change (Buffer.length [v]) with 1 in *.
  rewrite He. simpl.
  rewrite Buffer_writeUInt8_splice by (done || lia). done.
Qed.

Lemma emits_writeSignedByte v :
  fits_int8 v -> emits (writeSignedByte v) (Layout.int8 v).
Proof.
  intros Hv. apply emits_chunk. intros w1 H0 H1 w He.
  unfold writeSignedByte. change (Buffer.length (Layout.int8 v)) with 1 in *.
  rewrite He. simpl.
  rewrite Buffer_writeInt8_splice by (done || lia). done.
Qed.

Lemma emits_writeInt v :
  fits_int32 v -> emits (writeInt v) (Layout.int32le v).
Proof.
  intros Hv. apply emits_chunk. intros w1 H0 H1 w He.
  unfold writeInt. change (Buffer.length (Layout.int32le v)) with 4 in *.
  rewrite He. simpl.
  rewrite Buffer_writeInt32LE_splice by (done || lia). done.
Qed.

Lemma emits_writeBoolean b : emits (writeBoolean b) (Layout.boolean b).
Proof.
  unfold writeBoolean, Layout.boolean. apply emits_writeByte.
  unfold fits_byte. destruct b; lia.
Qed.

Lemma emits_writeBytes bytes : emits (writeBytes bytes) bytes.
Proof.
  apply emits_chunk. intros w1 H0 H1 w He.
  unfold writeBytes. rewrite He. simpl.
  pose proof (Buffer_length_nonneg bytes).
  rewrite Buffer_copy_splice by lia. simpl.
  unfold Buffer.length at 1. rewrite Nat2Z.id, firstn_all. done.
Qed.

Lemma emits_nop : emits nop [].
Proof.
  intros w Hwf. exists w. rewrite app_nil_r. done.
Qed.

Lemma emits_seq (f g : method) a b :
  emits f a -> emits g b -> emits (seq f g) (a ++ b).
Proof.
  intros Hf Hg w Hwf.
  destruct (Hf w Hwf) as (w1 & E1 & Hwf1 & B1).
  destruct (Hg w1 Hwf1) as (w2 & E2 & Hwf2 & B2).
  exists w2. unfold seq. rewrite E1. simpl.
  rewrite E2, B2, B1, (assoc (++)). done.
Qed.

Lemma emits_eq (m : method) a b : emits m a -> a = b -> emits m b.
Proof. by intros H <-. Qed.

Lemma emits_forOf {A : Type} (l : list A) (body : A -> method)
      (enc : A -> list Z) :
  Forall (fun x => emits (body x) (enc x)) l ->
  emits (forOf l body) (concat (map enc l)).
Proof.
  induction 1 as [|x l Hx _ IH]; simpl.
  - apply emits_nop.
  - by apply emits_seq.
Qed.

Lemma emits_when (c : bool) (body : method) bs :
  (c = true -> emits body bs) ->
  emits (GP6Writer.when_ c body) (if c then bs else []).
Proof.
  intros H. destruct c; simpl.
  - by apply H.
  - apply emits_nop.
Qed.

Lemma writeByte_range (w : BinaryWriter.t) v :
  wf w -> ~ fits_byte v -> writeByte v w = Throw (ERR_OUT_OF_RANGE v).
Proof.
  intros Hwf Hv.
  destruct (ensureCapacity_ok w 1 Hwf) as (w1 & E & _); [lia|].
  unfold writeByte. rewrite E. simpl.
  by rewrite Buffer_writeUInt8_range.
Qed.

Lemma writeString_seq value :
  writeString value
  = seq (writeInt (Buffer.length (Buffer.from_utf8 value)))
        (writeBytes (Buffer.from_utf8 value)).
Proof. reflexivity. Qed.

Lemma writeByteString_seq value :
  writeByteString value
  = seq (writeByte (Buffer.length (Buffer.from_utf8 value)))
        (writeBytes (Buffer.from_utf8 value)).
Proof. reflexivity. Qed.

Lemma emits_writeString value :
  fits_string value -> emits (writeString value) (Layout.prefixed value).
Proof.
  intros H. rewrite writeString_seq.
  apply emits_seq; [by apply emits_writeInt | apply emits_writeBytes].
Qed.

Lemma zero_loop_splice (buf : Buffer.t) pos i count :
  0 <= pos + i -> pos + i + Z.of_nat count <= Buffer.length buf ->
  zero_loop buf pos i count
  = splice buf (Z.to_nat (pos + i)) (replicate count 0).
Proof.
  revert buf i. induction count as [|count IH]; intros buf i H0 H1.
  - simpl. by rewrite splice_nil.
  - simpl. rewrite IH.
    + rewrite Buffer_set_splice by lia.
      unfold Buffer.length in *.
      rewrite splice_splice_at; [done| simpl; lia |].
      simpl. rewrite length_replicate. lia.
    + lia.
    + rewrite Buffer_set_length. lia.
Qed.

(** A negative length makes [writeFixedString] throw (in [Buffer.copy]). *)
Lemma writeFixedString_negative (w : BinaryWriter.t) value n :
  wf w -> n < 0 ->
  writeFixedString value n w = Throw (ERR_OUT_OF_RANGE n).
Proof.
  intros [H0 H1] Hn. unfold writeFixedString.
  rewrite ensureCapacity_keeps by lia. simpl.
  pose proof (Buffer_length_nonneg (Buffer.from_utf8 value)).
  rewrite Z.min_r by lia.
  by rewrite Buffer_copy_negative.
Qed.

Lemma fixed_length s n : length (Layout.fixed s n) = n.
Proof.
  unfold Layout.fixed.
  rewrite length_app, length_take, length_replicate. lia.
Qed.

Lemma emits_writeFixedString value (n : nat) :
  emits (writeFixedString value (Z.of_nat n)) (Layout.fixed value n).
Proof.
  apply emits_chunk. intros w1 H0 H1 w He.
  unfold Buffer.length in H1, He. rewrite fixed_length in H1, He.
  unfold writeFixedString. rewrite He. simpl.
  set (bytes := Buffer.from_utf8 value).
  unfold Buffer.length in *. rewrite fixed_length.
  set (written := Z.min (Z.of_nat (length bytes)) (Z.of_nat n)).
  rewrite Buffer_copy_splice by (unfold Buffer.length; lia). simpl.
  assert (length (take (Z.to_nat written) bytes) = Z.to_nat written) as Hlen
    by (rewrite length_take; lia).
  rewrite zero_loop_splice.
  - rewrite splice_splice_at.
    + do 3 f_equal. unfold Layout.fixed. fold bytes. f_equal.
      * destruct (Z.min_spec (Z.of_nat (length bytes)) (Z.of_nat n))
          as [[Hlt Hmin]|[Hle Hmin]]; fold written in Hmin; rewrite Hmin.
        -- rewrite !Nat2Z.id, !take_ge by lia. done.
        -- by rewrite Nat2Z.id.
      * f_equal. lia.
    + lia.
    + rewrite length_replicate. lia.
  - lia.
  - unfold Buffer.length. rewrite splice_length; lia.
Qed.

(** ** The document writer *)

Import GP6Writer.

Lemma flags3 (b0 b1 b2 : bool) :
  flag b2 0x04 (flag b1 0x02 (flag b0 0x01 0))
  = Layout.bit b0 0x01 + Layout.bit b1 0x02 + Layout.bit b2 0x04.
Proof. destruct b0, b1, b2; reflexivity. Qed.

Lemma flags6 (b0 b1 b2 b3 b4 b5 : bool) :
  flag b5 0x20 (flag b4 0x10 (flag b3 0x08
    (flag b2 0x04 (flag b1 0x02 (flag b0 0x01 0)))))
  = Layout.bit b0 0x01 + Layout.bit b1 0x02 + Layout.bit b2 0x04
    + Layout.bit b3 0x08 + Layout.bit b4 0x10 + Layout.bit b5 0x20.
Proof. destruct b0, b1, b2, b3, b4, b5; reflexivity. Qed.

Lemma flags8 (b0 b1 b2 b3 b4 b5 b6 b7 : bool) :
  flag b7 0x80 (flag b6 0x40 (flag b5 0x20 (flag b4 0x10 (flag b3 0x08
    (flag b2 0x04 (flag b1 0x02 (flag b0 0x01 0)))))))
  = Layout.bit b0 0x01 + Layout.bit b1 0x02 + Layout.bit b2 0x04
    + Layout.bit b3 0x08 + Layout.bit b4 0x10 + Layout.bit b5 0x20
    + Layout.bit b6 0x40 + Layout.bit b7 0x80.
Proof. destruct b0, b1, b2, b3, b4, b5, b6, b7; reflexivity. Qed.

Lemma bit_range (c : bool) mask : 0 <= mask -> 0 <= Layout.bit c mask <= mask.
Proof. destruct c; simpl; lia. Qed.

Lemma note_flags_fit n : fits_byte (Layout.note_flags n).
Proof.
  unfold fits_byte, Layout.note_flags.
  repeat match goal with
  | |- context [Layout.bit ?c ?m] =>
    let H := fresh in
    assert (H := bit_range c m ltac:(lia)); generalize dependent (Layout.bit c m);
    intros
  end. lia.
Qed.

Lemma beat_flags_fit b : fits_byte (Layout.beat_flags b).
Proof.
  unfold fits_byte, Layout.beat_flags.
  repeat match goal with
  | |- context [Layout.bit ?c ?m] =>
    let H := fresh in
    assert (H := bit_range c m ltac:(lia)); generalize dependent (Layout.bit c m);
    intros
  end. lia.
Qed.

Lemma measure_flags_fit m : 0 <= Layout.measure_flags m <= 63.
Proof.
  unfold Layout.measure_flags.
  repeat match goal with
  | |- context [Layout.bit ?c ?m] =>
    let H := fresh in
    assert (H := bit_range c m ltac:(lia)); generalize dependent (Layout.bit c m);
    intros
  end. lia.
Qed.

Lemma durationToValue_byte d : durationToValue d = Layout.duration_byte d.
Proof.
  unfold durationToValue, Layout.duration_byte, Beat.WHOLE, Beat.HALF,
    Beat.QUARTER, Beat.EIGHTH, Beat.SIXTEENTH, Beat.THIRTY_SECOND.
  simpl. zcases; subst; lia.
Qed.

Lemma durationToValue_fit d : fits_byte (durationToValue d).
Proof.
  unfold fits_byte, durationToValue. zcases.
Qed.

(** Split a sequence of writes into its parts, then compare the bytes. *)
Ltac emits_parts :=
  eapply emits_eq;
  [repeat match goal with |- emits (seq _ _) _ => eapply emits_seq end | ].

Lemma emits_writeNote n :
  fits_note n -> emits (writeNote n) (Layout.note_record n).
Proof.
  intros (Hs & Hf & Hv). unfold writeNote. cbv zeta.
  rewrite flags8. fold (Layout.note_flags n).
  emits_parts.
  - apply emits_writeByte, note_flags_fit.
  - by apply emits_writeByte.
  - by apply emits_writeByte.
  - by apply emits_writeByte.
  - reflexivity.
Qed.

Lemma emits_text (o : option jsstring) :
  fits_string (default [] o) ->
  emits (when_ (truthy_string o) (writeString (default [] o)))
        (Layout.text_payload o).
Proof.
  intros H. eapply emits_eq.
  - apply emits_when. intros _. by apply emits_writeString.
  - by destruct o as [[|c s]|].
Qed.

Lemma emits_writeBeat b :
  fits_beat b -> emits (writeBeat b) (Layout.beat_record b).
Proof.
  intros (Ht & Hx & Hc & Hn). unfold writeBeat. cbv zeta.
  rewrite flags3. fold (Layout.beat_flags b).
  emits_parts.
  - apply emits_writeByte, beat_flags_fit.
  - apply emits_writeByte, durationToValue_fit.
  - by apply emits_writeInt.
  - by apply emits_text.
  - by apply emits_writeInt.
  - apply (emits_forOf _ _ Layout.note_record).
    eapply Forall_impl; [exact Hn|]. apply emits_writeNote.
  - rewrite durationToValue_byte. unfold Layout.beat_record.
    rewrite <- !(assoc (++)). reflexivity.
Qed.

Lemma emits_count (o : option Z) :
  fits_byte (default 0 o) ->
  emits (when_ (truthy_number o) (writeByte (default 0 o)))
        (Layout.count_payload o).
Proof.
  intros H. eapply emits_eq.
  - apply emits_when. intros _. by apply emits_writeByte.
  - destruct o as [n|]; [|done]. simpl. by destruct (n =? 0).
Qed.

Lemma emits_tempo (o : option Z) :
  fits_int32 (default 0 o) ->
  emits (when_ (truthy_number o) (writeInt (default 0 o)))
        (Layout.tempo_payload o).
Proof.
  intros H. eapply emits_eq.
  - apply emits_when. intros _. by apply emits_writeInt.
  - destruct o as [n|]; [|done]. simpl. by destruct (n =? 0).
Qed.

Lemma emits_writeMeasure m :
  fits_measure m -> emits (writeMeasure m) (Layout.measure_record m).
Proof.
  intros (Hts & Hks & Hm & Hrc & Ht & Hc & Hb). unfold writeMeasure. cbv zeta.
  rewrite flags6. fold (Layout.measure_flags m).
  emits_parts.
  - apply emits_writeByte. pose proof (measure_flags_fit m).
    unfold fits_byte. lia.
  - instantiate (1 := Layout.time_payload (Measure.timeSignature m)).
    destruct (Measure.timeSignature m) as [ts|]; simpl in *.
    + destruct Hts. apply (emits_seq _ _ [_] [_]); by apply emits_writeByte.
    + apply emits_nop.
  - instantiate (1 := Layout.key_payload (Measure.keySignature m)).
    destruct (Measure.keySignature m) as [ks|]; simpl in *.
    + apply (emits_seq _ _ (Layout.int8 _) (Layout.boolean _));
        [by apply emits_writeSignedByte | apply emits_writeBoolean].
    + apply emits_nop.
  - by apply emits_text.
  - by apply emits_count.
  - by apply emits_tempo.
  - by apply emits_writeInt.
  - apply (emits_forOf _ _ Layout.beat_record).
    eapply Forall_impl; [exact Hb|]. apply emits_writeBeat.
  - unfold Layout.measure_record.
    rewrite <- !(assoc (++)). reflexivity.
Qed.

Lemma fits_emptyMeasure : fits_measure emptyMeasure.
Proof.
  unfold fits_measure, fits_string, fits_byte, fits_int32. simpl.
  repeat split; try (unfold Buffer.length; simpl; lia). apply Forall_nil. done.
Qed.

Lemma array_get_nat {A : Type} (l : list A) (i : nat) :
  array_get l (Z.of_nat i) = l !! i.
Proof.
  unfold array_get. destruct (Z.ltb_spec (Z.of_nat i) 0); [lia|].
  by rewrite Nat2Z.id.
Qed.

(** The measures read by the loop from index [i] on. *)
Lemma padded_step (ms : list Measure.t) (i count : nat) :
  take (S count) (drop i ms)
    ++ replicate (S count - (length ms - i)) emptyMeasure
  = default emptyMeasure (ms !! i)
      :: (take count (drop (S i) ms)
            ++ replicate (count - (length ms - S i)) emptyMeasure).
Proof.
  destruct (ms !! i) as [x|] eqn:E.
  - pose proof (lookup_lt_Some _ _ _ E).
    rewrite (drop_S _ _ _ E). simpl. do 3 f_equal. lia.
  - pose proof (lookup_ge_None_1 _ _ E).
    rewrite !drop_ge by lia. rewrite !take_nil. simpl.
    replace (S count - (length ms - i))%nat with (S count) by lia.
    replace (count - (length ms - S i))%nat with count by lia.
    done.
Qed.

Lemma emits_for_range (ms : list Measure.t) (count i : nat) :
  Forall fits_measure (take count (drop i ms)) ->
  emits (for_range (Z.of_nat i) count (fun j =>
           writeMeasure (default emptyMeasure (array_get ms j))))
        (concat (map Layout.measure_record
           (take count (drop i ms)
              ++ replicate (count - (length ms - i)) emptyMeasure))).
Proof.
  revert i. induction count as [|count IH]; intros i Hfit.
  - simpl. apply emits_nop.
  - rewrite padded_step. simpl for_range. rewrite array_get_nat.
    replace (Z.of_nat i + 1) with (Z.of_nat (S i)) by lia.
    rewrite map_cons, concat_cons. apply emits_seq.
    + apply emits_writeMeasure.
      destruct (ms !! i) as [x|] eqn:E; simpl.
      * rewrite (drop_S _ _ _ E) in Hfit. simpl in Hfit.
        by apply Forall_cons_1 in Hfit as [? _].
      * apply fits_emptyMeasure.
    + apply IH.
      destruct (ms !! i) as [x|] eqn:E.
      * rewrite (drop_S _ _ _ E) in Hfit. simpl in Hfit.
        by apply Forall_cons_1 in Hfit as [_ ?].
      * pose proof (lookup_ge_None_1 _ _ E).
        rewrite drop_ge, take_nil by lia. constructor.
Qed.

Lemma emits_writeTrackMeasures track measureCount :
  Forall fits_measure (take (Z.to_nat measureCount) (Track.measures track)) ->
  emits (writeTrackMeasures track measureCount)
        (concat (map Layout.measure_record
           (Layout.padded (Track.measures track) (Z.to_nat measureCount)))).
Proof.
  intros H. unfold writeTrackMeasures, Layout.padded.
  pose proof (emits_for_range (Track.measures track)
                (Z.to_nat measureCount) 0) as E.
  rewrite drop_0, Nat.sub_0_r in E. by apply E.
Qed.

Lemma padded_length ms count : length (Layout.padded ms count) = count.
Proof.
  unfold Layout.padded.
  rewrite length_app, length_take, length_replicate. lia.
Qed.

Lemma padded_short ms count :
  (length ms <= count)%nat ->
  Layout.padded ms count
  = ms ++ replicate (count - length ms) emptyMeasure.
Proof.
  intros H. unfold Layout.padded. by rewrite take_ge.
Qed.

Lemma emits_writeMeasures song :
  fits_int32 (Song.measureCount song) ->
  Forall (fun track => Forall fits_measure (Track.measures track))
         (Song.tracks song) ->
  emits (writeMeasures song)
        (Layout.int32le (Song.measureCount song)
           ++ concat (map (fun track =>
                concat (map Layout.measure_record
                  (Layout.padded (Track.measures track)
                     (Z.to_nat (Song.measureCount song)))))
                (Song.tracks song))).
Proof.
  intros Hc Hm. unfold writeMeasures. apply emits_seq.
  - by apply emits_writeInt.
  - apply (emits_forOf _ _ (fun track => concat (map Layout.measure_record
             (Layout.padded (Track.measures track)
                (Z.to_nat (Song.measureCount song)))))).
    eapply Forall_impl; [exact Hm|]. intros track Ht. simpl.
    apply emits_writeTrackMeasures. by apply Forall_take.
Qed.

Lemma max_measures_snoc tracks track :
  max_measures (tracks ++ [track])
  = Z.max (max_measures tracks) (Z.of_nat (length (Track.measures track))).
Proof.
  induction tracks as [|t tracks IH]; simpl.
  - lia.
  - rewrite IH. lia.
Qed.

Lemma wf_empty : wf {| buffer := []; position := 0 |}.
Proof. unfold wf, Buffer.length. simpl. lia. Qed.

(** ** Whatever the writer returns

    The lemmas above give the bytes of a write whose values fit their
    fields; those below give the bytes of every write that returns. *)

Lemma writeSignedByte_range (w : BinaryWriter.t) v :
  wf w -> ~ fits_int8 v -> writeSignedByte v w = Throw (ERR_OUT_OF_RANGE v).
Proof.
  intros Hwf Hv.
  destruct (ensureCapacity_ok w 1 Hwf) as (w1 & E & _); [lia|].
  unfold writeSignedByte. rewrite E. simpl.
  by rewrite Buffer_writeInt8_range.
Qed.

Lemma writeInt_range (w : BinaryWriter.t) v :
  wf w -> ~ fits_int32 v -> writeInt v w = Throw (ERR_OUT_OF_RANGE v).
Proof.
  intros Hwf Hv.
  destruct (ensureCapacity_ok w 4 Hwf) as (w1 & E & _); [lia|].
  unfold writeInt. rewrite E. simpl.
  by rewrite Buffer_writeInt32LE_range.
Qed.

Lemma writes_of_emits (m : method) bs : emits m bs -> writes m bs.
Proof.
  intros H w w' Hwf E.
  destruct (H w Hwf) as (w1 & E1 & Hwf1 & B). rewrite E1 in E.
  by injection E as <-.
Qed.

(** A method that emits when a condition holds, and throws otherwise. *)
Lemma writes_guarded (P : Prop) (m : method) bs :
  P \/ ~ P ->
  (P -> emits m bs) ->
  (~ P -> forall w, wf w -> exists e, m w = Throw e) ->
  writes m bs.
Proof.
  intros [HP|HP] Hok Hno.
  - by apply writes_of_emits, Hok.
  - intros w w' Hwf E. destruct (Hno HP w Hwf) as [e E']. congruence.
Qed.

Lemma writes_writeByte v : writes (writeByte v) [v].
Proof.
  apply (writes_guarded (fits_byte v)).
  - unfold fits_byte. lia.
  - apply emits_writeByte.
  - intros Hv w Hwf. eexists. by apply writeByte_range.
Qed.

Lemma writes_writeSignedByte v : writes (writeSignedByte v) (Layout.int8 v).
Proof.
  apply (writes_guarded (fits_int8 v)).
  - unfold fits_int8. lia.
  - apply emits_writeSignedByte.
  - intros Hv w Hwf. eexists. by apply writeSignedByte_range.
Qed.

Lemma writes_writeInt v : writes (writeInt v) (Layout.int32le v).
Proof.
  apply (writes_guarded (fits_int32 v)).
  - unfold fits_int32. lia.
  - apply emits_writeInt.
  - intros Hv w Hwf. eexists. by apply writeInt_range.
Qed.

Lemma writes_nop : writes nop [].
Proof. apply writes_of_emits, emits_nop. Qed.

Lemma writes_seq (f g : method) a b :
  writes f a -> writes g b -> writes (seq f g) (a ++ b).
Proof.
  intros Hf Hg w w' Hwf E. unfold seq in E.
  destruct (f w) as [w1|e] eqn:E1; simpl in E; [|discriminate].
  destruct (Hf w w1 Hwf E1) as [Hwf1 B1].
  destruct (Hg w1 w' Hwf1 E) as [Hwf' B'].
  split; [done|]. by rewrite B', B1, (assoc (++)).
Qed.

Lemma writes_eq (m : method) a b : writes m a -> a = b -> writes m b.
Proof. by intros H <-. Qed.

Lemma writes_forOf {A : Type} (l : list A) (body : A -> method)
      (enc : A -> list Z) :
  (forall x, writes (body x) (enc x)) ->
  writes (forOf l body) (concat (map enc l)).
Proof.
  intros H. induction l as [|x l IH]; simpl.
  - apply writes_nop.
  - by apply writes_seq.
Qed.

Lemma writes_when (c : bool) (body : method) bs :
  writes body bs -> writes (when_ c body) (if c then bs else []).
Proof.
  intros H. destruct c; simpl; [done | apply writes_nop].
Qed.

Ltac writes_parts :=
  eapply writes_eq;
  [repeat match goal with |- writes (seq _ _) _ => eapply writes_seq end | ].

Lemma writes_writeString value :
  writes (writeString value) (Layout.prefixed value).
Proof.
  rewrite writeString_seq.
  apply writes_seq; [apply writes_writeInt |].
  apply writes_of_emits, emits_writeBytes.
Qed.

Lemma writes_writeNote n : writes (writeNote n) (Layout.note_record n).
Proof.
  unfold writeNote. cbv zeta.
  rewrite flags8. fold (Layout.note_flags n).
  writes_parts; [apply writes_writeByte ..|reflexivity].
Qed.

Lemma writes_text (o : option jsstring) :
  writes (when_ (truthy_string o) (writeString (default [] o)))
         (Layout.text_payload o).
Proof.
  eapply writes_eq.
  - apply writes_when, writes_writeString.
  - by destruct o as [[|c s]|].
Qed.

Lemma writes_writeBeat b : writes (writeBeat b) (Layout.beat_record b).
Proof.
  unfold writeBeat. cbv zeta.
  rewrite flags3. fold (Layout.beat_flags b).
  writes_parts.
  - apply writes_writeByte.
  - apply writes_writeByte.
  - apply writes_writeInt.
  - apply writes_text.
  - apply writes_writeInt.
  - apply (writes_forOf _ _ Layout.note_record), writes_writeNote.
  - rewrite durationToValue_byte. unfold Layout.beat_record.
    rewrite <- !(assoc (++)). reflexivity.
Qed.

Lemma writes_count (o : option Z) :
  writes (when_ (truthy_number o) (writeByte (default 0 o)))
         (Layout.count_payload o).
Proof.
  eapply writes_eq.
  - apply writes_when, writes_writeByte.
  - destruct o as [n|]; [|done]. simpl. by destruct (n =? 0).
Qed.

Lemma writes_tempo (o : option Z) :
  writes (when_ (truthy_number o) (writeInt (default 0 o)))
         (Layout.tempo_payload o).
Proof.
  eapply writes_eq.
  - apply writes_when, writes_writeInt.
  - destruct o as [n|]; [|done]. simpl. by destruct (n =? 0).
Qed.

Lemma writes_writeMeasure m :
  writes (writeMeasure m) (Layout.measure_record m).
Proof.
  unfold writeMeasure. cbv zeta.
  rewrite flags6. fold (Layout.measure_flags m).
  writes_parts.
  - apply writes_writeByte.
  - instantiate (1 := Layout.time_payload (Measure.timeSignature m)).
    destruct (Measure.timeSignature m) as [ts|]; simpl.
    + apply (writes_seq _ _ [_] [_]); apply writes_writeByte.
    + apply writes_nop.
  - instantiate (1 := Layout.key_payload (Measure.keySignature m)).
    destruct (Measure.keySignature m) as [ks|]; simpl.
    + apply (writes_seq _ _ (Layout.int8 _) (Layout.boolean _));
        [apply writes_writeSignedByte |].
      apply writes_of_emits, emits_writeBoolean.
    + apply writes_nop.
  - apply writes_text.
  - apply writes_count.
  - apply writes_tempo.
  - apply writes_writeInt.
  - apply (writes_forOf _ _ Layout.beat_record), writes_writeBeat.
  - unfold Layout.measure_record.
    rewrite <- !(assoc (++)). reflexivity.
Qed.

Lemma writes_for_range (ms : list Measure.t) (count i : nat) :
  writes (for_range (Z.of_nat i) count (fun j =>
            writeMeasure (default emptyMeasure (array_get ms j))))
         (concat (map Layout.measure_record
            (take count (drop i ms)
               ++ replicate (count - (length ms - i)) emptyMeasure))).
Proof.
  revert i. induction count as [|count IH]; intros i.
  - simpl. apply writes_nop.
  - rewrite padded_step. simpl for_range. rewrite array_get_nat.
    replace (Z.of_nat i + 1) with (Z.of_nat (S i)) by lia.
    rewrite map_cons, concat_cons.
    apply writes_seq; [apply writes_writeMeasure | apply IH].
Qed.

Lemma writes_writeTrackMeasures track measureCount :
  writes (writeTrackMeasures track measureCount)
         (concat (map Layout.measure_record
            (Layout.padded (Track.measures track) (Z.to_nat measureCount)))).
Proof.
  unfold writeTrackMeasures, Layout.padded.
  pose proof (writes_for_range (Track.measures track)
                (Z.to_nat measureCount) 0) as E.
  by rewrite drop_0, Nat.sub_0_r in E.
Qed.

Lemma writes_writeMeasures song :
  writes (writeMeasures song)
         (Layout.int32le (Song.measureCount song)
            ++ concat (map (fun track =>
                 concat (map Layout.measure_record
                   (Layout.padded (Track.measures track)
                      (Z.to_nat (Song.measureCount song)))))
                 (Song.tracks song))).
Proof.
  unfold writeMeasures. apply writes_seq; [apply writes_writeInt |].
  apply (writes_forOf _ _ (fun track => concat (map Layout.measure_record
           (Layout.padded (Track.measures track)
              (Z.to_nat (Song.measureCount song)))))).
  intros track. apply writes_writeTrackMeasures.
Qed.

Lemma concat_singletons (l : list Z) : concat (map (fun x => [x]) l) = l.
Proof. induction l as [|x l IH]; simpl; [done | by rewrite IH]. Qed.

Lemma new_ok (size : Z) :
  0 <= size ->
  BinaryWriter.new size = Ok {| buffer := Buffer.alloc size; position := 0 |}
  /\ wf {| buffer := Buffer.alloc size; position := 0 |}
  /\ toBuffer {| buffer := Buffer.alloc size; position := 0 |} = [].
Proof.
  intros H. unfold BinaryWriter.new.
  destruct (Z.ltb_spec size 0); [lia|]. split; [done|].
  assert (wf {| buffer := Buffer.alloc size; position := 0 |}) as Hwf.
  { unfold wf, Buffer.length. simpl. lia. }
  split; [done|]. by rewrite toBuffer_take.
Qed.

(** * The claims *)

(** C1. For every string whose UTF-8 encoding is longer than 255 bytes,
    [writeByteString] throws (the range error of [writeByte]): no writer
    and no byte sequence is returned, and the length is neither cut nor
    wrapped.  For every string of at most 255 encoded bytes it appends the
    one-byte length followed by the encoded bytes. *)
Theorem writeByteString_length_prefix (value : jsstring)
        (w : BinaryWriter.t) :
  wf w ->
  let bytes := Buffer.from_utf8 value in
  (255 < Buffer.length bytes ->
   writeByteString value w = Throw (ERR_OUT_OF_RANGE (Buffer.length bytes)))
  /\ (Buffer.length bytes <= 255 ->
      exists w', writeByteString value w = Ok w' /\ wf w'
        /\ toBuffer w' = toBuffer w ++ Buffer.length bytes :: bytes).
Proof.
  intros Hwf bytes. split; intros Hlen.
  - rewrite writeByteString_seq. unfold seq.
    rewrite writeByte_range; [done | done |].
    unfold fits_byte. fold bytes. lia.
  - rewrite writeByteString_seq. fold bytes.
    apply (emits_seq _ _ [_] bytes); [|apply emits_writeBytes|done].
    apply emits_writeByte. unfold fits_byte.
    pose proof (Buffer_length_nonneg bytes). lia.
Qed.

Lemma writeByteString_length_prefix_witness :
  wf Sample.writer
  /\ writeByteString Sample.long_text Sample.writer
     = Throw (ERR_OUT_OF_RANGE 256)
  /\ exists w', writeByteString Sample.test Sample.writer = Ok w' /\ wf w'
       /\ toBuffer w' = [4; 116; 101; 115; 116].
Proof.
  assert (wf Sample.writer) as Hwf by (unfold wf; vm_compute; split; discriminate).
  split; [exact Hwf|]. split.
  - apply (proj1 (writeByteString_length_prefix Sample.long_text _ Hwf)).
    vm_compute. reflexivity.
  - apply (proj2 (writeByteString_length_prefix Sample.test _ Hwf)).
    vm_compute. discriminate.
Defined.

(** C2. For every song, [writeMeasures] writes the measure count and then,
    for each track in order, exactly [measureCount] measure records
    whatever the length of the track's own measure sequence: the track's
    own measures in order, then the record of an empty measure (flags 0,
    no optional field, beat count 0) for each missing trailing one.  This
    is what the writer has written whenever it returns, and it returns
    when the values fit their fields. *)
Theorem writeMeasures_pads_tracks (song : Song.t) (w : BinaryWriter.t) :
  wf w ->
  let count := Z.to_nat (Song.measureCount song) in
  let records track := Layout.padded (Track.measures track) count in
  (forall w', writeMeasures song w = Ok w' ->
     toBuffer w'
     = toBuffer w ++ Layout.int32le (Song.measureCount song)
         ++ concat (map (fun track =>
              concat (map Layout.measure_record (records track)))
              (Song.tracks song)))
  /\ (fits_int32 (Song.measureCount song) ->
      Forall (fun track => Forall fits_measure (Track.measures track))
             (Song.tracks song) ->
      exists w', writeMeasures song w = Ok w')
  /\ (forall track,
        Z.of_nat (length (records track))
        = Z.max 0 (Song.measureCount song))
  /\ (forall track,
        (length (Track.measures track) <= count)%nat ->
        records track
        = Track.measures track
            ++ replicate (count - length (Track.measures track))
                 emptyMeasure)
  /\ Layout.measure_record emptyMeasure = [0; 0; 0; 0; 0].
Proof.
  intros Hwf count records. repeat split.
  - intros w' E. by apply (writes_writeMeasures song w w' Hwf E).
  - intros Hc Hm.
    destruct (emits_writeMeasures song Hc Hm w Hwf) as (w' & E & _).
    by exists w'.
  - intros track. unfold records. rewrite padded_length. lia.
  - intros track. apply padded_short.
Qed.

Lemma writeMeasures_pads_tracks_witness :
  wf Sample.writer
  /\ fits_int32 (Song.measureCount Sample.two_tracks)
  /\ Forall (fun track => Forall fits_measure (Track.measures track))
            (Song.tracks Sample.two_tracks)
  /\ map (fun track => length (Track.measures track))
         (Song.tracks Sample.two_tracks) = [2; 4]%nat
  /\ exists w', writeMeasures Sample.two_tracks Sample.writer = Ok w'
       /\ toBuffer w'
          = [4; 0; 0; 0]
              ++ ([1; 4; 4; 0; 0; 0; 0] ++ [1; 4; 4; 0; 0; 0; 0]
                    ++ [0; 0; 0; 0; 0] ++ [0; 0; 0; 0; 0])
              ++ ([1; 4; 4; 0; 0; 0; 0] ++ [1; 4; 4; 0; 0; 0; 0]
                    ++ [1; 4; 4; 0; 0; 0; 0] ++ [1; 4; 4; 0; 0; 0; 0]).
Proof.
  assert (wf Sample.writer) as Hwf
    by (unfold wf; vm_compute; split; discriminate).
  assert (fits_int32 (Song.measureCount Sample.two_tracks)) as Hc
    by (unfold fits_int32; vm_compute; split; discriminate).
  assert (fits_measure Sample.common_time) as Hm.
  { unfold fits_measure, fits_string, fits_int32, fits_byte, Buffer.length.
    simpl. repeat split; try lia. apply Forall_nil_2. }
  assert (Forall (fun track => Forall fits_measure (Track.measures track))
                 (Song.tracks Sample.two_tracks)) as Ht
    by (simpl; repeat (apply Forall_cons_2 || apply Forall_nil_2);
        exact Hm).
  split; [exact Hwf|]. split; [exact Hc|]. split; [exact Ht|].
  split; [reflexivity|].
  destruct (writeMeasures_pads_tracks Sample.two_tracks _ Hwf)
    as (Hbytes & Hreturns & _).
  destruct (Hreturns Hc Ht) as [w' E].
  exists w'. split; [exact E|]. exact (Hbytes w' E).
Defined.

(** C3. For every song built from [createSong] by attaching tracks (and
    setting the tempo), [measureCount] is the largest measure-sequence
    length over the song's tracks, and 0 when there is no track;
    [addTrackToSong] recomputes it as the larger of the old count and the
    length of the attached track. *)
Theorem measureCount_is_max (song : Song.t) :
  built song ->
  Song.measureCount song = max_measures (Song.tracks song)
  /\ (forall track, track ∈ Song.tracks song ->
        Z.of_nat (length (Track.measures track)) <= Song.measureCount song)
  /\ (Song.tracks song = [] -> Song.measureCount song = 0)
  /\ (Song.tracks song <> [] ->
      exists track, track ∈ Song.tracks song
        /\ Song.measureCount song = Z.of_nat (length (Track.measures track)))
  /\ (forall track,
        Song.measureCount (Song.addTrackToSong song track)
        = Z.max (Song.measureCount song)
                (Z.of_nat (length (Track.measures track)))).
Proof.
  intros Hb.
  assert (Song.measureCount song = max_measures (Song.tracks song)) as E.
  { induction Hb; simpl; [done| |done].
    rewrite max_measures_snoc. by rewrite IHHb. }
  split; [done|]. clear Hb.
  split; [|split; [|split]]; [rewrite E; clear E ..|].
  - induction (Song.tracks song) as [|t l IH]; intros track Hin.
    + by apply elem_of_nil in Hin.
    + apply elem_of_cons in Hin as [->|Hin]; simpl; [lia|].
      specialize (IH track Hin). lia.
  - by intros ->.
  - induction (Song.tracks song) as [|t l IH]; intros Hne; [done|].
    destruct l as [|t' l'].
    + exists t. split; [apply list_elem_of_here | simpl; lia].
    + destruct IH as (track & Hin & E); [done|].
      destruct (Z_le_gt_dec (max_measures (t' :: l'))
                            (Z.of_nat (length (Track.measures t)))).
      * exists t. split; [apply list_elem_of_here|].
        change (max_measures (t :: t' :: l'))
          with (Z.max (Z.of_nat (length (Track.measures t)))
                      (max_measures (t' :: l'))). lia.
      * exists track. split; [by apply list_elem_of_further|].
        change (max_measures (t :: t' :: l'))
          with (Z.max (Z.of_nat (length (Track.measures t)))
                      (max_measures (t' :: l'))). lia.
  - intros track. reflexivity.
Qed.

Lemma measureCount_is_max_witness :
  built Sample.two_tracks
  /\ Song.measureCount Sample.two_tracks = 4
  /\ Song.measureCount Sample.two_tracks
     = max_measures (Song.tracks Sample.two_tracks).
Proof.
  assert (built Sample.two_tracks) as Hb by (repeat constructor).
  split; [exact Hb|]. split; [reflexivity|].
  exact (proj1 (measureCount_is_max Sample.two_tracks Hb)).
Defined.

(** C4. The duration byte of a beat record is the second byte that
    [writeBeat] writes, and it is [durationToValue] of the beat's
    duration: the value of the duration itself for each of the six
    durations (1, 2, 4, 8, 16, 32), and quarter note (4), never another
    value, for every other duration value; no duration value makes the
    writer fail. *)
Theorem writeBeat_duration_byte (beat : Beat.t) (w : BinaryWriter.t) :
  wf w ->
  let recognized :=
    [Beat.WHOLE; Beat.HALF; Beat.QUARTER; Beat.EIGHTH; Beat.SIXTEENTH;
     Beat.THIRTY_SECOND] in
  (forall w', writeBeat beat w = Ok w' ->
     exists rest,
       toBuffer w'
       = toBuffer w ++ Layout.beat_flags beat
           :: durationToValue (Beat.duration beat) :: rest)
  /\ (fits_beat beat -> exists w', writeBeat beat w = Ok w')
  /\ recognized = [1; 2; 4; 8; 16; 32]
  /\ (Beat.duration beat ∈ recognized ->
      durationToValue (Beat.duration beat) = Beat.duration beat)
  /\ (Beat.duration beat ∉ recognized ->
      durationToValue (Beat.duration beat) = 4).
Proof.
  intros Hwf recognized. split; [|split; [|split; [done|split]]].
  - intros w' E.
    destruct (writes_writeBeat beat w w' Hwf E) as [_ B].
    eexists. rewrite B. unfold Layout.beat_record.
    rewrite durationToValue_byte. simpl. reflexivity.
  - intros Hfit.
    destruct (emits_writeBeat beat Hfit w Hwf) as (w' & E & _).
    by exists w'.
  - intros Hin. unfold recognized in Hin.
    repeat (apply elem_of_cons in Hin as [->|Hin]; [reflexivity|]).
    by apply elem_of_nil in Hin.
  - intros Hout. unfold recognized in Hout.
    set (d := Beat.duration beat) in *. clearbody d.
    unfold durationToValue, Beat.WHOLE, Beat.HALF, Beat.QUARTER,
      Beat.EIGHTH, Beat.SIXTEENTH, Beat.THIRTY_SECOND in *.
    zcases; subst; exfalso; apply Hout;
      repeat (first [apply list_elem_of_here | apply list_elem_of_further]).
Qed.

Lemma writeBeat_duration_byte_witness :
  wf Sample.writer /\ fits_beat Sample.rest_with_note
  /\ exists w' rest, writeBeat Sample.rest_with_note Sample.writer = Ok w'
       /\ toBuffer w' = 2 :: 4 :: rest.
Proof.
  assert (wf Sample.writer) as Hwf
    by (unfold wf; vm_compute; split; discriminate).
  assert (fits_beat Sample.rest_with_note) as Hfit.
  { unfold fits_beat, fits_string, fits_int32, Buffer.length.
    simpl. repeat split; try lia.
    apply Forall_cons_2; [|apply Forall_nil_2].
    unfold fits_note, fits_byte. simpl. lia. }
  split; [exact Hwf|]. split; [exact Hfit|].
  destruct (writeBeat_duration_byte Sample.rest_with_note _ Hwf)
    as (Hbytes & Hreturns & _).
  destruct (Hreturns Hfit) as [w' E].
  destruct (Hbytes w' E) as [rest B].
  exists w', rest. split; [exact E|]. exact B.
Defined.

(** C5. When the cursor plus the required bytes exceeds the capacity,
    [ensureCapacity] replaces the storage by one of
    max(cursor + required, 2 * capacity) bytes that starts with all the
    bytes of the old one, and otherwise leaves the writer alone; it never
    moves the cursor and never changes the written bytes.  So a writer of
    any initial capacity, after any sequence of single bytes, yields
    exactly that sequence; one of capacity 5, after the bytes 1 to 7,
    yields [1; 2; 3; 4; 5; 6; 7]. *)
Theorem ensureCapacity_growth :
  (forall (w : BinaryWriter.t) (additional : Z),
     wf w ->
     let capacity := Buffer.length (buffer w) in
     let required := position w + additional in
     exists w', ensureCapacity additional w = Ok w'
       /\ position w' = position w
       /\ toBuffer w' = toBuffer w
       /\ take (length (buffer w)) (buffer w') = buffer w
       /\ Buffer.length (buffer w')
          = if required >? capacity
            then Z.max required (capacity * 2) else capacity)
  /\ (forall (size : Z) (values : list Z),
        0 <= size -> Forall fits_byte values ->
        exists w0 w', BinaryWriter.new size = Ok w0
          /\ forOf values writeByte w0 = Ok w'
          /\ toBuffer w' = values)
  /\ (w <- BinaryWriter.new 5;;
      w <- forOf [1; 2; 3; 4; 5; 6; 7] writeByte w;;
      Ok (toBuffer w)) = Ok [1; 2; 3; 4; 5; 6; 7].
Proof.
  split; [|split; [|reflexivity]].
  - intros w additional Hwf capacity required.
    destruct (Z.gtb_spec required capacity) as [Hgt|Hle].
    + subst capacity required.
      rewrite ensureCapacity_grows by lia. eexists. split; [done|].
      simpl. split; [done|].
      assert (wf {| buffer := buffer w ++ replicate (Z.to_nat
                (Z.max (position w + additional)
                       (Buffer.length (buffer w) * 2)
                 - Buffer.length (buffer w))) 0;
                position := position w |}) as Hwf'.
      { destruct Hwf. unfold wf, Buffer.length in *. simpl.
        rewrite length_app. lia. }
      rewrite !toBuffer_take by done. simpl.
      destruct Hwf. unfold Buffer.length in *.
      rewrite take_app_le by lia. split; [done|].
      rewrite take_app_length. split; [done|].
      rewrite length_app, length_replicate. lia.
    + subst capacity required. exists w.
      rewrite ensureCapacity_keeps by lia.
      by rewrite firstn_all.
  - intros size values Hsize Hfit.
    destruct (new_ok size Hsize) as (E0 & Hwf & B0).
    destruct (emits_forOf values writeByte (fun x => [x])) with
      (w := {| buffer := Buffer.alloc size; position := 0 |})
      as (w' & E & _ & B).
    + eapply Forall_impl; [exact Hfit|]. intros x Hx. by apply emits_writeByte.
    + done.
    + eexists. exists w'. split; [exact E0|]. split; [exact E|].
      by rewrite B, B0, concat_singletons.
Qed.

Lemma ensureCapacity_growth_witness :
  wf {| buffer := [1; 2; 3; 4; 5]; position := 5 |}
  /\ exists w',
       ensureCapacity 1 {| buffer := [1; 2; 3; 4; 5]; position := 5 |}
       = Ok w'
       /\ position w' = 5
       /\ toBuffer w' = [1; 2; 3; 4; 5]
       /\ take 5 (buffer w') = [1; 2; 3; 4; 5]
       /\ Buffer.length (buffer w') = 10.
Proof.
  assert (wf {| buffer := [1; 2; 3; 4; 5]; position := 5 |}) as Hwf
    by (unfold wf; vm_compute; split; discriminate).
  split; [exact Hwf|].
  exact (proj1 ensureCapacity_growth _ 1 Hwf).
Defined.

(** C6. For every string and every length n, [writeFixedString] appends
    exactly n bytes: the UTF-8 encoding of the string cut at n bytes, then
    zeros up to n.  "hi" in 10 bytes is 'h', 'i' and eight zeros, and
    "hello world" in 5 bytes is "hello". *)
Theorem writeFixedString_exact (text : jsstring) (n : nat)
        (w : BinaryWriter.t) :
  wf w ->
  let bytes := Buffer.from_utf8 text in
  let field := take n bytes ++ replicate (n - length bytes) 0 in
  (exists w', writeFixedString text (Z.of_nat n) w = Ok w'
     /\ toBuffer w' = toBuffer w ++ field)
  /\ length field = n
  /\ Layout.fixed Sample.hi 10 = [104; 105; 0; 0; 0; 0; 0; 0; 0; 0]
  /\ Layout.fixed Sample.hello_world 5 = [104; 101; 108; 108; 111].
Proof.
  intros Hwf bytes field. split; [|split; [|split; reflexivity]].
  - destruct (emits_writeFixedString text n w Hwf) as (w' & E & _ & B).
    by exists w'.
  - apply fixed_length.
Qed.

Lemma writeFixedString_exact_witness :
  wf Sample.writer
  /\ (exists w', writeFixedString Sample.hi 10 Sample.writer = Ok w'
        /\ toBuffer w' = [104; 105; 0; 0; 0; 0; 0; 0; 0; 0])
  /\ (exists w', writeFixedString Sample.hello_world 5 Sample.writer = Ok w'
        /\ toBuffer w' = [104; 101; 108; 108; 111]).
Proof.
  assert (wf Sample.writer) as Hwf
    by (unfold wf; vm_compute; split; discriminate).
  split; [exact Hwf|]. split.
  - exact (proj1 (writeFixedString_exact Sample.hi 10 _ Hwf)).
  - exact (proj1 (writeFixedString_exact Sample.hello_world 5 _ Hwf)).
Defined.

Lemma measure_flags_bits m :
  Z.testbit (Layout.measure_flags m) 0
  = truthy_object (Measure.timeSignature m)
  /\ Z.testbit (Layout.measure_flags m) 1
     = truthy_object (Measure.keySignature m)
  /\ Z.testbit (Layout.measure_flags m) 2
     = truthy_string (Measure.marker m)
  /\ Z.testbit (Layout.measure_flags m) 3
     = truthy_boolean (Measure.repeatOpen m)
  /\ Z.testbit (Layout.measure_flags m) 4
     = truthy_number (Measure.repeatClose m)
  /\ Z.testbit (Layout.measure_flags m) 5
     = truthy_number (Measure.tempo m).
Proof.
  unfold Layout.measure_flags.
  destruct (truthy_object (Measure.timeSignature m)),
    (truthy_object (Measure.keySignature m)),
    (truthy_string (Measure.marker m)),
    (truthy_boolean (Measure.repeatOpen m)),
    (truthy_number (Measure.repeatClose m)),
    (truthy_number (Measure.tempo m)); repeat split; reflexivity.
Qed.

Lemma beat_flags_bits b :
  Z.testbit (Layout.beat_flags b) 0 = Beat.dotted b
  /\ Z.testbit (Layout.beat_flags b) 1 = Beat.rest b
  /\ Z.testbit (Layout.beat_flags b) 2 = truthy_string (Beat.text b).
Proof.
  unfold Layout.beat_flags.
  destruct (Beat.dotted b), (Beat.rest b), (truthy_string (Beat.text b));
    repeat split; reflexivity.
Qed.

(** C7, as worded, fails: a measure whose marker is present but empty is
    written with bit 0x04 clear and without a marker payload. *)
Lemma writeMeasure_empty_marker_counterexample :
  Measure.marker Sample.marked_empty = Some []
  /\ Layout.presence_record Sample.marked_empty
     = [4; 0; 0; 0; 0; 0; 0; 0; 0]
  /\ exists w', writeMeasure Sample.marked_empty Sample.writer = Ok w'
       /\ toBuffer w' = [0; 0; 0; 0; 0]
       /\ toBuffer w'
          <> toBuffer Sample.writer
               ++ Layout.presence_record Sample.marked_empty.
Proof.
  split; [reflexivity|]. split; [reflexivity|].
  eexists. split; [reflexivity|]. split; [reflexivity|].
  discriminate.
Qed.

(** C7, amended.  The record of a measure begins with one flags byte
    whose bit 0x01 is set iff a time signature is present, 0x02 iff a key
    signature is present, 0x04 iff a non-empty marker is present, 0x08
    iff repeat-open is true, 0x10 iff a non-zero repeat-close count is
    present and 0x20 iff a non-zero tempo override is present.  The
    payloads of the flagged fields follow in that order (numerator and
    denominator bytes; signed key byte and minor byte; length-prefixed
    marker; repeat-close byte; 4-byte tempo), repeat-open having none,
    then the 4-byte beat count and the beat records.  This is what the
    writer has written whenever it returns, and it returns when the
    values fit their fields. *)
Theorem writeMeasure_record (measure : Measure.t) (w : BinaryWriter.t) :
  wf w ->
  let flags := Layout.measure_flags measure in
  (forall w', writeMeasure measure w = Ok w' ->
     toBuffer w'
     = toBuffer w ++ [flags]
         ++ Layout.time_payload (Measure.timeSignature measure)
         ++ Layout.key_payload (Measure.keySignature measure)
         ++ Layout.text_payload (Measure.marker measure)
         ++ Layout.count_payload (Measure.repeatClose measure)
         ++ Layout.tempo_payload (Measure.tempo measure)
         ++ Layout.int32le (Z.of_nat (length (Measure.beats measure)))
         ++ concat (map Layout.beat_record (Measure.beats measure)))
  /\ (fits_measure measure -> exists w', writeMeasure measure w = Ok w')
  /\ 0 <= flags < 64
  /\ Z.testbit flags 0 = truthy_object (Measure.timeSignature measure)
  /\ Z.testbit flags 1 = truthy_object (Measure.keySignature measure)
  /\ Z.testbit flags 2 = truthy_string (Measure.marker measure)
  /\ Z.testbit flags 3 = truthy_boolean (Measure.repeatOpen measure)
  /\ Z.testbit flags 4 = truthy_number (Measure.repeatClose measure)
  /\ Z.testbit flags 5 = truthy_number (Measure.tempo measure).
Proof.
  intros Hwf flags. split; [|split; [|split]].
  - intros w' E. by apply (writes_writeMeasure measure w w' Hwf E).
  - intros Hfit.
    destruct (emits_writeMeasure measure Hfit w Hwf) as (w' & E & _).
    by exists w'.
  - pose proof (measure_flags_fit measure). unfold flags. lia.
  - apply measure_flags_bits.
Qed.

Lemma writeMeasure_record_witness :
  wf Sample.writer /\ fits_measure Sample.full_measure
  /\ exists w', writeMeasure Sample.full_measure Sample.writer = Ok w'
       /\ toBuffer w'
          = [63] ++ [3; 4] ++ [255; 1] ++ [2; 0; 0; 0; 104; 105] ++ [2]
              ++ [90; 0; 0; 0] ++ [0; 0; 0; 0] ++ [].
Proof.
  assert (wf Sample.writer) as Hwf
    by (unfold wf; vm_compute; split; discriminate).
  assert (fits_measure Sample.full_measure) as Hfit.
  { unfold fits_measure, fits_string, fits_int32, fits_int8, fits_byte,
      Buffer.length.
    simpl. repeat split; try lia. apply Forall_nil_2. }
  split; [exact Hwf|]. split; [exact Hfit|].
  destruct (writeMeasure_record Sample.full_measure _ Hwf)
    as (Hbytes & Hreturns & _).
  destruct (Hreturns Hfit) as [w' E].
  exists w'. split; [exact E|]. exact (Hbytes w' E).
Defined.

(** C8. [addNoteToBeat] appends the note to the beat's notes and clears
    the rest flag, leaving the other fields alone; setting the rest flag
    leaves the notes alone, so a beat can be a rest and still hold
    notes. *)
Theorem addNoteToBeat_clears_rest (beat : Beat.t) (note : Note.t) :
  Beat.notes (Beat.addNoteToBeat beat note) = Beat.notes beat ++ [note]
  /\ Beat.rest (Beat.addNoteToBeat beat note) = false
  /\ Beat.duration (Beat.addNoteToBeat beat note) = Beat.duration beat
  /\ Beat.dotted (Beat.addNoteToBeat beat note) = Beat.dotted beat
  /\ Beat.tuplet (Beat.addNoteToBeat beat note) = Beat.tuplet beat
  /\ Beat.text (Beat.addNoteToBeat beat note) = Beat.text beat
  /\ (forall value,
        Beat.notes (Beat.set_rest beat value) = Beat.notes beat
        /\ Beat.rest (Beat.set_rest beat value) = value)
  /\ Beat.rest (Beat.set_rest (Beat.addNoteToBeat beat note) true) = true
  /\ Beat.notes (Beat.set_rest (Beat.addNoteToBeat beat note) true)
     = Beat.notes beat ++ [note].
Proof. repeat split. Qed.

(** C9, as worded, fails: asked for seven strings, [createTrack] returns
    the six-string standard tuning; asked for -1, it returns five. *)
Lemma createTrack_seven_strings_counterexample :
  Track.strings (Track.tuning (Track.createTrack Sample.guitar (Some 7)))
  = [64; 59; 55; 50; 45; 40]
  /\ Z.of_nat (length (Track.strings (Track.tuning
        (Track.createTrack Sample.guitar (Some 7))))) <> 7
  /\ Track.strings (Track.tuning (Track.createTrack Sample.guitar (Some (-1))))
     = [64; 59; 55; 50; 45].
Proof. repeat split. discriminate. Qed.

(** C9, amended.  For every name and every string count from 0 to 6,
    [createTrack] returns a track whose tuning has one MIDI note number
    per string, as many as the string count, and is exactly the first
    string-count elements of [64; 59; 55; 50; 45; 40] (all six for 6, and
    when the count is left out). *)
Theorem createTrack_tuning_prefix (name : jsstring) (stringCount : Z) :
  0 <= stringCount <= 6 ->
  let strings :=
    Track.strings (Track.tuning (Track.createTrack name (Some stringCount))) in
  Z.of_nat (length strings) = stringCount
  /\ strings = take (Z.to_nat stringCount) [64; 59; 55; 50; 45; 40]
  /\ Track.strings (Track.tuning (Track.createTrack name None))
     = [64; 59; 55; 50; 45; 40].
Proof.
  intros H strings.
  assert (stringCount = 0 \/ stringCount = 1 \/ stringCount = 2
          \/ stringCount = 3 \/ stringCount = 4 \/ stringCount = 5
          \/ stringCount = 6) as Hc by lia.
  subst strings.
  destruct Hc as [->|[->|[->|[->|[->|[->| ->]]]]]]; repeat split.
Qed.

Lemma createTrack_tuning_prefix_witness :
  0 <= 4 <= 6
  /\ Track.strings (Track.tuning (Track.createTrack Sample.guitar (Some 4)))
     = [64; 59; 55; 50].
Proof.
  assert (0 <= 4 <= 6) as H by lia.
  split; [exact H|].
  exact (proj1 (proj2 (createTrack_tuning_prefix Sample.guitar 4 H))).
Defined.

(** C10. A measure whose tempo is 0, whose repeat-close count is 0 or
    whose marker is the empty string, and a beat whose text is the empty
    string, are written exactly as if the field were undefined: the
    flags bit (0x20, 0x10, 0x04 of the measure; 0x04 of the beat) is
    clear and no payload is written. *)
Theorem falsy_fields_written_as_absent :
  (forall beats ts ks tempo marker ro rc,
     writeMeasure (Measure.mk beats ts ks (Some 0) marker ro rc)
     = writeMeasure (Measure.mk beats ts ks None marker ro rc)
     /\ writeMeasure (Measure.mk beats ts ks tempo (Some []) ro rc)
        = writeMeasure (Measure.mk beats ts ks tempo None ro rc)
     /\ writeMeasure (Measure.mk beats ts ks tempo marker ro (Some 0))
        = writeMeasure (Measure.mk beats ts ks tempo marker ro None))
  /\ (forall notes duration dotted tuplet rest,
        writeBeat (Beat.mk notes duration dotted tuplet rest (Some []))
        = writeBeat (Beat.mk notes duration dotted tuplet rest None))
  /\ (forall measure w w', wf w -> writeMeasure measure w = Ok w' ->
        exists flags rest,
          toBuffer w' = toBuffer w ++ flags :: rest
          /\ (Measure.tempo measure = Some 0 -> Z.testbit flags 5 = false)
          /\ (Measure.repeatClose measure = Some 0 ->
              Z.testbit flags 4 = false)
          /\ (Measure.marker measure = Some [] ->
              Z.testbit flags 2 = false))
  /\ (forall beat w w', wf w -> writeBeat beat w = Ok w' ->
        exists flags rest,
          toBuffer w' = toBuffer w ++ flags :: rest
          /\ (Beat.text beat = Some [] -> Z.testbit flags 2 = false)).
Proof.
  split; [|split; [|split]].
  - intros. repeat split.
  - reflexivity.
  - intros measure w w' Hwf E.
    destruct (writes_writeMeasure measure w w' Hwf E) as [_ B].
    destruct (measure_flags_bits measure) as (_ & _ & B2 & _ & B4 & B5).
    exists (Layout.measure_flags measure). eexists.
    split; [exact B|].
    rewrite B2, B4, B5. by repeat split; intros ->.
  - intros beat w w' Hwf E.
    destruct (writes_writeBeat beat w w' Hwf E) as [_ B].
    destruct (beat_flags_bits beat) as (_ & _ & B2).
    exists (Layout.beat_flags beat). eexists.
    split; [exact B|].
    rewrite B2. by intros ->.
Qed.

Lemma falsy_fields_written_as_absent_witness :
  wf Sample.writer
  /\ writeMeasure Sample.marked_empty Sample.writer
     = Ok {| buffer := [0; 0; 0; 0; 0]; position := 5 |}
  /\ Measure.marker Sample.marked_empty = Some []
  /\ exists flags rest,
       toBuffer {| buffer := [0; 0; 0; 0; 0]; position := 5 |}
       = flags :: rest
       /\ Z.testbit flags 2 = false.
Proof.
  assert (wf Sample.writer) as Hwf
    by (unfold wf; vm_compute; split; discriminate).
  assert (writeMeasure Sample.marked_empty Sample.writer
          = Ok {| buffer := [0; 0; 0; 0; 0]; position := 5 |}) as E
    by reflexivity.
  split; [exact Hwf|]. split; [exact E|]. split; [reflexivity|].
  destruct (proj1 (proj2 (proj2 falsy_fields_written_as_absent))
              Sample.marked_empty _ _ Hwf E)
    as (flags & rest & B & _ & _ & Hbit).
  exists flags, rest. split; [exact B|].
  apply Hbit. reflexivity.
Defined.


(** * Further properties of the byte buffer *)

Lemma toBuffer_length (w : BinaryWriter.t) :
  wf w -> Z.of_nat (length (toBuffer w)) = position w.
Proof.
  intros Hwf. rewrite toBuffer_take by done.
  destruct Hwf. unfold Buffer.length in *. rewrite length_take. lia.
Qed.

Lemma position_after (w w' : BinaryWriter.t) bs :
  wf w -> wf w' -> toBuffer w' = toBuffer w ++ bs ->
  position w' = position w + Z.of_nat (length bs).
Proof.
  intros Hwf Hwf' B.
  rewrite <- (toBuffer_length w'), <- (toBuffer_length w) by done.
  rewrite B, length_app. lia.
Qed.

Lemma array_get_app_r (a b : list Z) k :
  0 <= k -> array_get (a ++ b) (Z.of_nat (length a) + k) = array_get b k.
Proof.
  intros Hk. unfold array_get.
  destruct (Z.ltb_spec (Z.of_nat (length a) + k) 0); [lia|].
  destruct (Z.ltb_spec k 0); [lia|].
  replace (Z.to_nat (Z.of_nat (length a) + k))
    with (length a + Z.to_nat k)%nat by lia.
  rewrite lookup_app_r by lia. f_equal. lia.
Qed.

Lemma int32le_decode v :
  fits_int32 v ->
  let u := v mod 2 ^ 32 in
  let last := (u / 2 ^ 24) mod 256 in
  u mod 256 + (u / 2 ^ 8) mod 256 * 2 ^ 8 + (u / 2 ^ 16) mod 256 * 2 ^ 16
  + (if last <? 128 then last * 2 ^ 24 else last * 2 ^ 24 - 2 ^ 32)
  = v.
Proof.
  intros Hv u last. unfold fits_int32 in Hv.
  assert (0 <= u < 2 ^ 32) as Hu by (apply Z.mod_pos_bound; lia).
  assert (u = v \/ u = v + 2 ^ 32) as Huv.
  { destruct (Z_lt_le_dec v 0).
    - right. unfold u. symmetry.
      apply (Z.mod_unique v (2 ^ 32) (-1)); lia.
    - left. unfold u. apply Z.mod_small. lia. }
  subst last. change (2 ^ 8) with 256 in *. change (2 ^ 16) with 65536 in *.
  change (2 ^ 24) with 16777216 in *. change (2 ^ 32) with 4294967296 in *.
  clearbody u.
  destruct (Z.ltb_spec ((u / 16777216) mod 256) 128);
    Z.div_mod_to_equations; lia.
Qed.

Lemma emits_skip (n : nat) : emits (skip (Z.of_nat n)) (replicate n 0).
Proof.
  apply emits_chunk. intros w1 H0 H1 w He.
  unfold Buffer.length in H1, He. rewrite length_replicate in H1, He.
  unfold skip. rewrite He. simpl. rewrite Nat2Z.id.
  rewrite zero_loop_splice by (unfold Buffer.length; lia).
  unfold Buffer.length. rewrite length_replicate.
  do 3 f_equal. lia.
Qed.

Lemma writes_writeByteString value :
  writes (writeByteString value)
         (Buffer.length (Buffer.from_utf8 value) :: Buffer.from_utf8 value).
Proof.
  rewrite writeByteString_seq.
  apply (writes_seq _ _ [_]); [apply writes_writeByte |].
  apply writes_of_emits, emits_writeBytes.
Qed.

Lemma writes_writeColor r g b : writes (writeColor r g b) [r; g; b; 0].
Proof.
  unfold writeColor.
  apply (writes_seq _ _ [_]); [apply writes_writeByte |].
  apply (writes_seq _ _ [_]); [apply writes_writeByte |].
  apply (writes_seq _ _ [_] [_]); apply writes_writeByte.
Qed.

Lemma writes_call m : call m -> exists bs, writes m bs.
Proof.
  destruct 1; eexists.
  - apply writes_writeByte.
  - apply writes_writeSignedByte.
  - apply writes_writeInt.
  - apply writes_of_emits, emits_writeBoolean.
  - apply writes_writeString.
  - apply writes_writeByteString.
  - apply writes_of_emits, emits_writeFixedString.
  - apply writes_of_emits, emits_writeBytes.
  - apply writes_writeColor.
  - apply writes_of_emits, emits_skip.
Qed.

(** X1. The writer is append-only.  Whatever sequence of its public calls
    (with non-negative counts) returns from a sound writer, the bytes
    written before are still there, unchanged, with the new ones after
    them; the cursor has not moved back, and it is the number of bytes
    that [toBuffer] returns. *)
Theorem calls_append_only (calls : list BinaryWriter.method)
        (w w' : BinaryWriter.t) :
  Forall call calls -> wf w ->
  forOf calls (fun m => m) w = Ok w' ->
  wf w'
  /\ (exists bs, toBuffer w' = toBuffer w ++ bs)
  /\ getPosition w <= getPosition w'
  /\ getPosition w' = Z.of_nat (length (toBuffer w')).
Proof.
  intros Hcalls. revert w. induction Hcalls as [|m calls Hm _ IH];
    intros w Hwf E.
  - injection E as <-. split; [done|]. split; [by exists []; rewrite app_nil_r|].
    split; [lia|]. by rewrite toBuffer_length.
  - simpl in E. unfold seq in E.
    destruct (m w) as [w1|e] eqn:E1; simpl in E; [|discriminate].
    destruct (writes_call m Hm) as [bs Hbs].
    destruct (Hbs w w1 Hwf E1) as [Hwf1 B1].
    destruct (IH w1 Hwf1 E) as (Hwf' & [bs' B'] & Hpos & Hlen).
    split; [done|]. split; [|split; [|done]].
    + exists (bs ++ bs'). by rewrite B', B1, (assoc (++)).
    + pose proof (position_after w w1 bs Hwf Hwf1 B1).
      unfold getPosition in *. lia.
Qed.

Lemma calls_append_only_witness :
  Forall call Example.mixed_calls /\ wf Sample.writer
  /\ forOf Example.mixed_calls (fun m => m) Sample.writer
     = Ok Example.mixed_written
  /\ getPosition Example.mixed_written
     = Z.of_nat (length (toBuffer Example.mixed_written)).
Proof.
  assert (Forall call Example.mixed_calls) as Hc.
  { unfold Example.mixed_calls.
    repeat (apply Forall_cons_2 || apply Forall_nil_2); constructor. }
  assert (wf Sample.writer) as Hwf
    by (unfold wf; vm_compute; split; discriminate).
  assert (forOf Example.mixed_calls (fun m => m) Sample.writer
          = Ok Example.mixed_written) as E by reflexivity.
  split; [exact Hc|]. split; [exact Hwf|]. split; [exact E|].
  exact (proj2 (proj2 (proj2 (calls_append_only _ _ _ Hc Hwf E)))).
Defined.



(** X3. [writeSignedByte] throws on a value outside -128..127; otherwise
    it appends one byte, the two's complement of the value, which
    [readInt8] reads back as the value. *)
Theorem writeSignedByte_readInt8 (v : Z) (w : BinaryWriter.t) :
  wf w ->
  (fits_int8 v ->
   exists w', writeSignedByte v w = Ok w'
     /\ getPosition w' = getPosition w + 1
     /\ toBuffer w' = toBuffer w ++ [if v <? 0 then v + 256 else v]
     /\ BufferRead.readInt8 (toBuffer w') (getPosition w) = Ok v)
  /\ (~ fits_int8 v -> writeSignedByte v w = Throw (ERR_OUT_OF_RANGE v)).
Proof.
  intros Hwf. split; intros Hv; [|by apply writeSignedByte_range].
  destruct (emits_writeSignedByte v Hv w Hwf) as (w' & E & Hwf' & B).
  unfold fits_int8 in Hv.
  assert (v mod 256 = if v <? 0 then v + 256 else v) as Hb.
  { destruct (Z.ltb_spec v 0).
    - symmetry. apply (Z.mod_unique v 256 (-1)); lia.
    - apply Z.mod_small. lia. }
  exists w'. split; [done|]. split; [|split].
  - apply (position_after w w' _ Hwf Hwf' B).
  - rewrite B. unfold Layout.int8. by rewrite Hb.
  - unfold BufferRead.readInt8, getPosition.
    rewrite B, <- (toBuffer_length w Hwf).
    rewrite <- (Z.add_0_r (Z.of_nat (length (toBuffer w)))).
    rewrite array_get_app_r by lia.
    unfold Layout.int8. simpl. rewrite Hb. f_equal.
    destruct (Z.ltb_spec v 0); zcases.
Qed.

Lemma writeSignedByte_readInt8_witness :
  wf Sample.writer /\ fits_int8 (-42) /\ ~ fits_int8 128
  /\ (exists w', writeSignedByte (-42) Sample.writer = Ok w'
        /\ toBuffer w' = [214]
        /\ BufferRead.readInt8 (toBuffer w') 0 = Ok (-42))
  /\ writeSignedByte 128 Sample.writer = Throw (ERR_OUT_OF_RANGE 128).
Proof.
  assert (wf Sample.writer) as Hwf
    by (unfold wf; vm_compute; split; discriminate).
  assert (fits_int8 (-42)) as Hv by (unfold fits_int8; lia).
  assert (~ fits_int8 128) as Hn by (unfold fits_int8; lia).
  split; [exact Hwf|]. split; [exact Hv|]. split; [exact Hn|]. split.
  - destruct (proj1 (writeSignedByte_readInt8 (-42) _ Hwf) Hv)
      as (w' & E & _ & B & R).
    exists w'. split; [exact E|]. split; [exact B | exact R].
  - exact (proj2 (writeSignedByte_readInt8 128 _ Hwf) Hn).
Defined.

Lemma int32le_injective a b :
  fits_int32 a -> fits_int32 b -> Layout.int32le a = Layout.int32le b -> a = b.
Proof.
  intros Ha Hb E.
  rewrite <- (int32le_decode a Ha), <- (int32le_decode b Hb).
  unfold Layout.int32le in E. injection E as E0 E1 E2 E3.
  cbv zeta. by rewrite E0, E1, E2, E3.
Qed.

Lemma writeString_range (w : BinaryWriter.t) value :
  wf w -> ~ fits_string value ->
  writeString value w
  = Throw (ERR_OUT_OF_RANGE (Buffer.length (Buffer.from_utf8 value))).
Proof.
  intros Hwf Hv. rewrite writeString_seq. unfold seq.
  by rewrite writeInt_range.
Qed.

(** X4. [writeString] appends the 4-byte little-endian count of the
    string's UTF-8 bytes (not of its characters) and then those bytes;
    [readInt32LE] at the old cursor reads the count back, and the cursor
    moves by 4 plus the count.  It throws only for a string of 2^31
    encoded bytes or more. *)
Theorem writeString_length_prefix (value : jsstring) (w : BinaryWriter.t) :
  wf w ->
  let bytes := Buffer.from_utf8 value in
  (fits_string value ->
   exists w', writeString value w = Ok w'
     /\ toBuffer w' = toBuffer w ++ Layout.int32le (Buffer.length bytes)
                        ++ bytes
     /\ BufferRead.readInt32LE (toBuffer w') (getPosition w)
        = Ok (Buffer.length bytes)
     /\ getPosition w' = getPosition w + 4 + Buffer.length bytes)
  /\ (~ fits_string value ->
      writeString value w = Throw (ERR_OUT_OF_RANGE (Buffer.length bytes))).
Proof.
  intros Hwf bytes. split; intros Hv; [|by apply writeString_range].
  destruct (emits_writeString value Hv w Hwf) as (w' & E & Hwf' & B).
  unfold Layout.prefixed in B. fold bytes in B.
  exists w'. split; [done|]. split; [done|]. split.
  - unfold BufferRead.readInt32LE, getPosition.
    rewrite B, <- (toBuffer_length w Hwf).
    rewrite <- (Z.add_0_r (Z.of_nat (length (toBuffer w)))) at 1.
    rewrite !array_get_app_r by lia.
    simpl. f_equal. by apply int32le_decode.
  - unfold getPosition. rewrite (position_after w w' _ Hwf Hwf' B).
    rewrite length_app. unfold Buffer.length. simpl. lia.
Qed.

Lemma writeString_length_prefix_witness :
  wf Sample.writer /\ fits_string Example.cafe
  /\ length Example.cafe = 4%nat
  /\ exists w', writeString Example.cafe Sample.writer = Ok w'
       /\ toBuffer w' = [5; 0; 0; 0] ++ [99; 97; 102; 195; 169]
       /\ BufferRead.readInt32LE (toBuffer w') 0 = Ok 5.
Proof.
  assert (wf Sample.writer) as Hwf
    by (unfold wf; vm_compute; split; discriminate).
  assert (fits_string Example.cafe) as Hv
    by (unfold fits_string, fits_int32; vm_compute; split; discriminate).
  split; [exact Hwf|]. split; [exact Hv|]. split; [reflexivity|].
  destruct (proj1 (writeString_length_prefix Example.cafe _ Hwf) Hv)
    as (w' & E & B & R & _).
  exists w'. split; [exact E|]. split; [exact B | exact R].
Defined.

(** X5. What [writeString] writes can be read back without ambiguity:
    if two strings are written from the same writer and the bytes written
    for the first, followed by anything, equal the bytes written for the
    second, followed by anything, then the two strings have the same UTF-8
    bytes and what follows is the same. *)
Theorem writeString_unambiguous (a b : jsstring)
        (w wa wb : BinaryWriter.t) (ra rb : list Z) :
  wf w ->
  writeString a w = Ok wa -> writeString b w = Ok wb ->
  toBuffer wa ++ ra = toBuffer wb ++ rb ->
  Buffer.from_utf8 a = Buffer.from_utf8 b /\ ra = rb.
Proof.
  intros Hwf Ea Eb E.
  assert (fits_string a) as Ha.
  { destruct (Z_le_gt_dec (-2147483648) (Buffer.length (Buffer.from_utf8 a))),
      (Z_le_gt_dec (Buffer.length (Buffer.from_utf8 a)) 2147483647);
      try (split; lia);
      rewrite writeString_range in Ea by (done || unfold fits_string, fits_int32; lia);
      discriminate. }
  assert (fits_string b) as Hb.
  { destruct (Z_le_gt_dec (-2147483648) (Buffer.length (Buffer.from_utf8 b))),
      (Z_le_gt_dec (Buffer.length (Buffer.from_utf8 b)) 2147483647);
      try (split; lia);
      rewrite writeString_range in Eb by (done || unfold fits_string, fits_int32; lia);
      discriminate. }
  destruct (writes_writeString a w wa Hwf Ea) as [_ Ba].
  destruct (writes_writeString b w wb Hwf Eb) as [_ Bb].
  rewrite Ba, Bb in E. unfold Layout.prefixed in E.
  rewrite <- !(assoc (++)) in E. apply app_inv_head in E.
  assert (Layout.int32le (Buffer.length (Buffer.from_utf8 a))
          = Layout.int32le (Buffer.length (Buffer.from_utf8 b))) as El.
  { apply (f_equal (take 4)) in E. by rewrite !take_app_length' in E. }
  rewrite El in E. apply app_inv_head in E.
  apply int32le_injective in El; [|done..].
  apply app_inj_1 in E; [done|].
  unfold Buffer.length in El. lia.
Qed.

Lemma writeString_unambiguous_witness :
  wf Sample.writer
  /\ writeString Sample.hi Sample.writer
     = Ok {| buffer := [2; 0; 0; 0; 104; 105; 0; 0]; position := 6 |}
  /\ Buffer.from_utf8 Sample.hi = Buffer.from_utf8 Sample.hi
  /\ [7] = [7].
Proof.
  assert (wf Sample.writer) as Hwf
    by (unfold wf; vm_compute; split; discriminate).
  assert (writeString Sample.hi Sample.writer
          = Ok {| buffer := [2; 0; 0; 0; 104; 105; 0; 0]; position := 6 |}) as E
    by reflexivity.
  split; [exact Hwf|]. split; [exact E|].
  exact (writeString_unambiguous Sample.hi Sample.hi _ _ _ [7] [7]
           Hwf E E eq_refl).
Defined.

(** X6. [writeBytes] never throws: it appends the given bytes verbatim,
    whatever the capacity of the writer, and moves the cursor by their
    number. *)
Theorem writeBytes_verbatim (bytes : list Z) (w : BinaryWriter.t) :
  wf w ->
  exists w', writeBytes bytes w = Ok w'
    /\ toBuffer w' = toBuffer w ++ bytes
    /\ getPosition w' = getPosition w + Z.of_nat (length bytes).
Proof.
  intros Hwf.
  destruct (emits_writeBytes bytes w Hwf) as (w' & E & Hwf' & B).
  exists w'. split; [done|]. split; [done|].
  apply (position_after w w' _ Hwf Hwf' B).
Qed.

Lemma writeBytes_verbatim_witness :
  wf Sample.writer
  /\ exists w', writeBytes [1; 2; 3; 4; 5] Sample.writer = Ok w'
       /\ toBuffer w' = [1; 2; 3; 4; 5]
       /\ getPosition w' = 5.
Proof.
  assert (wf Sample.writer) as Hwf
    by (unfold wf; vm_compute; split; discriminate).
  split; [exact Hwf|].
  exact (writeBytes_verbatim [1; 2; 3; 4; 5] _ Hwf).
Defined.

(** X7. [writeColor] appends the three components and one zero byte when
    each component is in 0..255, and otherwise throws for the first
    component that is not, writing nothing. *)
Theorem writeColor_padding (r g b : Z) (w : BinaryWriter.t) :
  wf w ->
  (fits_byte r -> fits_byte g -> fits_byte b ->
   exists w', writeColor r g b w = Ok w'
     /\ toBuffer w' = toBuffer w ++ [r; g; b; 0])
  /\ (~ fits_byte r -> writeColor r g b w = Throw (ERR_OUT_OF_RANGE r))
  /\ (fits_byte r -> ~ fits_byte g ->
      writeColor r g b w = Throw (ERR_OUT_OF_RANGE g))
  /\ (fits_byte r -> fits_byte g -> ~ fits_byte b ->
      writeColor r g b w = Throw (ERR_OUT_OF_RANGE b)).
Proof.
  intros Hwf. split; [|split; [|split]].
  - intros Hr Hg Hb.
    assert (emits (writeColor r g b) ([r] ++ [g] ++ [b] ++ [0])) as H.
    { unfold writeColor.
      repeat (apply emits_seq; [by apply emits_writeByte|]).
      apply emits_writeByte. unfold fits_byte. lia. }
    destruct (H w Hwf) as (w' & E & _ & B). by exists w'.
  - intros Hr. unfold writeColor, seq. by rewrite writeByte_range.
  - intros Hr Hg. unfold writeColor, seq.
    destruct (emits_writeByte r Hr w Hwf) as (w1 & -> & Hwf1 & _). simpl.
    by rewrite writeByte_range.
  - intros Hr Hg Hb. unfold writeColor, seq.
    destruct (emits_writeByte r Hr w Hwf) as (w1 & -> & Hwf1 & _). simpl.
    destruct (emits_writeByte g Hg w1 Hwf1) as (w2 & -> & Hwf2 & _). simpl.
    by rewrite writeByte_range.
Qed.

Lemma writeColor_padding_witness :
  wf Sample.writer /\ fits_byte 255 /\ fits_byte 128 /\ fits_byte 64
  /\ ~ fits_byte 256
  /\ (exists w', writeColor 255 128 64 Sample.writer = Ok w'
        /\ toBuffer w' = [255; 128; 64; 0])
  /\ writeColor 255 256 64 Sample.writer = Throw (ERR_OUT_OF_RANGE 256).
Proof.
  assert (wf Sample.writer) as Hwf
    by (unfold wf; vm_compute; split; discriminate).
  assert (fits_byte 255) as H1 by (unfold fits_byte; lia).
  assert (fits_byte 128) as H2 by (unfold fits_byte; lia).
  assert (fits_byte 64) as H3 by (unfold fits_byte; lia).
  assert (~ fits_byte 256) as H4 by (unfold fits_byte; lia).
  split; [exact Hwf|]. split; [exact H1|]. split; [exact H2|].
  split; [exact H3|]. split; [exact H4|]. split.
  - exact (proj1 (writeColor_padding 255 128 64 _ Hwf) H1 H2 H3).
  - exact (proj1 (proj2 (proj2 (writeColor_padding 255 256 64 _ Hwf)))
             H1 H4).
Defined.

(** X8. [skip] with a count n >= 0 appends n zero bytes, overwriting
    whatever the storage held after the cursor.  With a negative count it
    writes nothing and moves the cursor back, so that the last bytes
    written drop out of what [toBuffer] returns. *)
Theorem skip_zeros_and_rewind (w : BinaryWriter.t) :
  wf w ->
  (forall n : nat,
     exists w', skip (Z.of_nat n) w = Ok w'
       /\ toBuffer w' = toBuffer w ++ replicate n 0)
  /\ (forall count : Z,
        - position w <= count < 0 ->
        skip count w
        = Ok {| buffer := buffer w; position := position w + count |}
        /\ toBuffer {| buffer := buffer w; position := position w + count |}
           = take (Z.to_nat (position w + count)) (toBuffer w)).
Proof.
  intros Hwf. split.
  - intros n. destruct (emits_skip n w Hwf) as (w' & E & _ & B).
    by exists w'.
  - intros count Hc. destruct Hwf as [H0 H1].
    assert (skip count w
            = Ok {| buffer := buffer w; position := position w + count |})
      as E.
    { unfold skip. rewrite ensureCapacity_keeps by lia. simpl.
      by replace (Z.to_nat count) with O by lia. }
    split; [done|].
    rewrite !toBuffer_take by (unfold wf; simpl; lia). simpl.
    rewrite take_take. f_equal. lia.
Qed.

Lemma skip_zeros_and_rewind_witness :
  wf Example.stale
  /\ (exists w', skip 2 Example.stale = Ok w'
        /\ toBuffer w' = [1; 2; 3] ++ [0; 0])
  /\ - position Example.stale <= -2 < 0
  /\ toBuffer {| buffer := buffer Example.stale;
                 position := position Example.stale + -2 |} = [1].
Proof.
  assert (wf Example.stale) as Hwf
    by (unfold wf; vm_compute; split; discriminate).
  assert (- position Example.stale <= -2 < 0) as Hc by (simpl; lia).
  split; [exact Hwf|]. split; [|split; [exact Hc|]].
  - exact (proj1 (skip_zeros_and_rewind _ Hwf) 2%nat).
  - exact (proj2 (proj2 (skip_zeros_and_rewind _ Hwf) (-2) Hc)).
Defined.


(** * Further properties of the document writer *)

Lemma meets_guarded (P : Prop) (m : method) bs :
  P \/ ~ P ->
  (P -> emits m bs) ->
  (~ P -> forall w, wf w -> exists e, m w = Throw e) ->
  meets m bs P.
Proof.
  intros Hdec Hok Hno. split; [done|]. split.
  - by apply (writes_guarded P).
  - intros w w' Hwf E. destruct Hdec as [HP|HP]; [done|].
    destruct (Hno HP w Hwf) as [e E']. congruence.
Qed.

Lemma meets_total (m : method) bs : emits m bs -> meets m bs True.
Proof.
  intros H. split; [done|]. split; [by apply writes_of_emits | done].
Qed.

Lemma meets_writeByte v : meets (writeByte v) [v] (fits_byte v).
Proof.
  apply meets_guarded.
  - unfold fits_byte. lia.
  - apply emits_writeByte.
  - intros Hv w Hwf. eexists. by apply writeByte_range.
Qed.

Lemma meets_writeSignedByte v :
  meets (writeSignedByte v) (Layout.int8 v) (fits_int8 v).
Proof.
  apply meets_guarded.
  - unfold fits_int8. lia.
  - apply emits_writeSignedByte.
  - intros Hv w Hwf. eexists. by apply writeSignedByte_range.
Qed.

Lemma meets_writeInt v : meets (writeInt v) (Layout.int32le v) (fits_int32 v).
Proof.
  apply meets_guarded.
  - unfold fits_int32. lia.
  - apply emits_writeInt.
  - intros Hv w Hwf. eexists. by apply writeInt_range.
Qed.

Lemma meets_writeString value :
  meets (writeString value) (Layout.prefixed value) (fits_string value).
Proof.
  apply meets_guarded.
  - unfold fits_string, fits_int32. lia.
  - apply emits_writeString.
  - intros Hv w Hwf. eexists. by apply writeString_range.
Qed.

Lemma meets_nop : meets nop [] True.
Proof. apply meets_total, emits_nop. Qed.

Lemma meets_seq (f g : method) a b (P Q : Prop) :
  meets f a P -> meets g b Q -> meets (seq f g) (a ++ b) (P /\ Q).
Proof.
  intros (Ef & Wf & Gf) (Eg & Wg & Gg). split; [|split].
  - intros [HP HQ]. apply emits_seq; auto.
  - by apply writes_seq.
  - intros w w' Hwf E. unfold seq in E.
    destruct (f w) as [w1|e] eqn:E1; simpl in E; [|discriminate].
    destruct (Wf w w1 Hwf E1) as [Hwf1 _].
    split; [exact (Gf w w1 Hwf E1) | exact (Gg w1 w' Hwf1 E)].
Qed.

Lemma meets_iff (m : method) a b (P Q : Prop) :
  meets m a P -> a = b -> (P <-> Q) -> meets m b Q.
Proof.
  intros (E & W & G) <- HPQ. split; [|split].
  - intros HQ. apply E, HPQ, HQ.
  - done.
  - intros w w' Hwf Ew. apply HPQ. exact (G w w' Hwf Ew).
Qed.

Lemma meets_forOf {A : Type} (l : list A) (body : A -> method)
      (enc : A -> list Z) (P : A -> Prop) :
  (forall x, meets (body x) (enc x) (P x)) ->
  meets (forOf l body) (concat (map enc l)) (Forall P l).
Proof.
  intros H. induction l as [|x l IH]; simpl.
  - eapply meets_iff; [apply meets_nop | done |].
    split; [intros _; constructor | done].
  - eapply meets_iff; [apply meets_seq; [apply H | apply IH] | done |].
    split; [intros []; by constructor | by inversion 1].
Qed.

Lemma meets_when (c : bool) (body : method) bs (P : Prop) :
  meets body bs P ->
  meets (when_ c body) (if c then bs else []) (c = true -> P).
Proof.
  intros H. destruct c; simpl.
  - eapply meets_iff; [exact H | done |]. split; auto.
  - eapply meets_iff; [apply meets_nop | done |]. split; [discriminate | done].
Qed.

(** What [meets] says about one run. *)
Lemma meets_run (m : method) bs (P : Prop) (w : BinaryWriter.t) :
  meets m bs P -> wf w ->
  ((exists w', m w = Ok w') <-> P)
  /\ (forall w', m w = Ok w' ->
        wf w' /\ toBuffer w' = toBuffer w ++ bs
        /\ getPosition w' = getPosition w + Z.of_nat (length bs)).
Proof.
  intros (E & W & G) Hwf. split.
  - split.
    + intros [w' Ew]. exact (G w w' Hwf Ew).
    + intros HP. destruct (E HP w Hwf) as (w' & Ew & _). by exists w'.
  - intros w' Ew. destruct (W w w' Hwf Ew) as [Hwf' B].
    split; [done|]. split; [done|]. by apply position_after.
Qed.

Ltac meets_parts :=
  repeat match goal with |- meets (seq _ _) _ _ => eapply meets_seq end.

Lemma meets_writeNote n :
  meets (writeNote n) (Layout.note_record n) (fits_note n).
Proof.
  unfold writeNote. cbv zeta.
  rewrite flags8. fold (Layout.note_flags n).
  eapply meets_iff; [meets_parts; apply meets_writeByte | reflexivity |].
  pose proof (note_flags_fit n). unfold fits_note. tauto.
Qed.

Lemma meets_text (o : option jsstring) :
  meets (when_ (truthy_string o) (writeString (default [] o)))
        (Layout.text_payload o) (fits_string (default [] o)).
Proof.
  eapply meets_iff; [apply meets_when, meets_writeString | |].
  - by destruct o as [[|c s]|].
  - destruct o as [[|c s]|]; simpl; try tauto;
      (split; [intros _|done]);
      unfold fits_string, fits_int32, Buffer.length; simpl; lia.
Qed.

Lemma meets_writeBeat b :
  meets (writeBeat b) (Layout.beat_record b) (fits_beat b).
Proof.
  unfold writeBeat. cbv zeta.
  rewrite flags3. fold (Layout.beat_flags b).
  eapply meets_iff.
  - meets_parts.
    + apply meets_writeByte.
    + apply meets_writeByte.
    + apply meets_writeInt.
    + apply meets_text.
    + apply meets_writeInt.
    + apply (meets_forOf _ _ Layout.note_record fits_note), meets_writeNote.
  - rewrite durationToValue_byte. unfold Layout.beat_record.
    rewrite <- !(assoc (++)). reflexivity.
  - pose proof (beat_flags_fit b).
    pose proof (durationToValue_fit (Beat.duration b)).
    unfold fits_beat. tauto.
Qed.

Lemma meets_count (o : option Z) :
  meets (when_ (truthy_number o) (writeByte (default 0 o)))
        (Layout.count_payload o) (fits_byte (default 0 o)).
Proof.
  eapply meets_iff; [apply meets_when, meets_writeByte | |].
  - destruct o as [n|]; [|done]. simpl. by destruct (n =? 0).
  - destruct o as [n|]; simpl.
    + destruct (Z.eqb_spec n 0); simpl; [|tauto].
      subst. unfold fits_byte. split; [lia | done].
    + unfold fits_byte. split; [lia | done].
Qed.

Lemma meets_tempo (o : option Z) :
  meets (when_ (truthy_number o) (writeInt (default 0 o)))
        (Layout.tempo_payload o) (fits_int32 (default 0 o)).
Proof.
  eapply meets_iff; [apply meets_when, meets_writeInt | |].
  - destruct o as [n|]; [|done]. simpl. by destruct (n =? 0).
  - destruct o as [n|]; simpl.
    + destruct (Z.eqb_spec n 0); simpl; [|tauto].
      subst. unfold fits_int32. split; [lia | done].
    + unfold fits_int32. split; [lia | done].
Qed.

Lemma meets_writeMeasure m :
  meets (writeMeasure m) (Layout.measure_record m) (fits_measure m).
Proof.
  unfold writeMeasure. cbv zeta.
  rewrite flags6. fold (Layout.measure_flags m).
  eapply meets_iff.
  - meets_parts.
    + apply meets_writeByte.
    + instantiate (1 := from_option (fun ts =>
          fits_byte (Measure.numerator ts)
          /\ fits_byte (Measure.denominator ts)) True
          (Measure.timeSignature m)).
      instantiate (1 := Layout.time_payload (Measure.timeSignature m)).
      destruct (Measure.timeSignature m) as [ts|]; simpl.
      * apply (meets_seq _ _ [_] [_]); apply meets_writeByte.
      * apply meets_nop.
    + instantiate (1 := from_option (fun ks =>
          fits_int8 (Measure.value ks)) True (Measure.keySignature m)).
      instantiate (1 := Layout.key_payload (Measure.keySignature m)).
      destruct (Measure.keySignature m) as [ks|]; simpl.
      * eapply meets_iff;
          [eapply (meets_seq _ _ (Layout.int8 _) (Layout.boolean _));
             [apply meets_writeSignedByte
             | apply meets_total, emits_writeBoolean]
          | reflexivity | tauto].
      * apply meets_nop.
    + apply meets_text.
    + apply meets_count.
    + apply meets_tempo.
    + apply meets_writeInt.
    + apply (meets_forOf _ _ Layout.beat_record fits_beat), meets_writeBeat.
  - unfold Layout.measure_record.
    rewrite <- !(assoc (++)). reflexivity.
  - pose proof (measure_flags_fit m).
    unfold fits_measure, fits_byte. intuition lia.
Qed.

Lemma meets_for_range (ms : list Measure.t) (count i : nat) :
  meets (for_range (Z.of_nat i) count (fun j =>
           writeMeasure (default emptyMeasure (array_get ms j))))
        (concat (map Layout.measure_record
           (take count (drop i ms)
              ++ replicate (count - (length ms - i)) emptyMeasure)))
        (Forall fits_measure
           (take count (drop i ms)
              ++ replicate (count - (length ms - i)) emptyMeasure)).
Proof.
  revert i. induction count as [|count IH]; intros i.
  - simpl. eapply meets_iff; [apply meets_nop | done |].
    split; [intros _; constructor | done].
  - rewrite padded_step. simpl for_range. rewrite array_get_nat.
    replace (Z.of_nat i + 1) with (Z.of_nat (S i)) by lia.
    rewrite map_cons, concat_cons.
    eapply meets_iff;
      [apply meets_seq; [apply meets_writeMeasure | apply IH] | done |].
    split; [intros []; by constructor | by inversion 1].
Qed.

Lemma meets_writeTrackMeasures track measureCount :
  meets (writeTrackMeasures track measureCount)
        (concat (map Layout.measure_record
           (Layout.padded (Track.measures track) (Z.to_nat measureCount))))
        (Forall fits_measure
           (Layout.padded (Track.measures track) (Z.to_nat measureCount))).
Proof.
  unfold writeTrackMeasures, Layout.padded.
  pose proof (meets_for_range (Track.measures track)
                (Z.to_nat measureCount) 0) as E.
  by rewrite drop_0, Nat.sub_0_r in E.
Qed.

Lemma meets_writeMeasures song :
  meets (writeMeasures song) (Document.measure_table song)
        (fits_int32 (Song.measureCount song)
         /\ Forall (fun track =>
                      Forall fits_measure
                             (Document.written_measures song track))
                   (Song.tracks song)).
Proof.
  unfold writeMeasures, Document.measure_table.
  apply meets_seq; [apply meets_writeInt |].
  apply (meets_forOf _ _
           (fun track => concat (map Layout.measure_record
                                     (Document.written_measures song track)))
           (fun track => Forall fits_measure
                                (Document.written_measures song track))).
  intros track. apply meets_writeTrackMeasures.
Qed.

Lemma meets_writeColor r g b :
  meets (writeColor r g b) [r; g; b; 0]
        (fits_byte r /\ fits_byte g /\ fits_byte b).
Proof.
  unfold writeColor.
  eapply meets_iff;
    [eapply (meets_seq _ _ [r]); [apply meets_writeByte |];
     eapply (meets_seq _ _ [g]); [apply meets_writeByte |];
     eapply (meets_seq _ _ [b] [0]); apply meets_writeByte
    | reflexivity |].
  unfold fits_byte. intuition lia.
Qed.

Lemma meets_writeTrack track :
  meets (writeTrack track) (Document.track_record track) (fits_track track).
Proof.
  unfold writeTrack.
  eapply meets_iff.
  - meets_parts.
    + apply meets_writeByte.
    + apply meets_writeString.
    + apply meets_writeInt.
    + apply (meets_forOf _ _ Layout.int32le fits_int32), meets_writeInt.
    + apply meets_writeInt.
    + apply meets_writeInt.
    + apply meets_writeInt.
    + apply meets_writeInt.
    + apply meets_writeInt.
    + apply meets_writeInt.
    + apply meets_writeInt.
    + apply meets_writeInt.
    + apply meets_writeInt.
    + apply meets_writeColor.
    + apply meets_writeInt.
    + apply meets_writeInt.
  - unfold Document.track_record.
    rewrite <- !(assoc (++)). reflexivity.
  - assert (fits_byte 0) by (unfold fits_byte; lia).
    unfold fits_track. tauto.
Qed.

Lemma meets_writeTracks song :
  meets (writeTracks song) (Document.track_table song)
        (fits_int32 (Z.of_nat (length (Song.tracks song)))
         /\ Forall fits_track (Song.tracks song)).
Proof.
  unfold writeTracks, Document.track_table.
  apply meets_seq; [apply meets_writeInt |].
  apply (meets_forOf _ _ Document.track_record fits_track), meets_writeTrack.
Qed.

Lemma or_string_default (o : option jsstring) : or_string o [] = default [] o.
Proof. by destruct o as [[|c s]|]. Qed.

Lemma meets_writeSongInfo song :
  meets (writeSongInfo song) (Document.info_record (Song.info song))
        (fits_info (Song.info song)).
Proof.
  unfold writeSongInfo. cbv zeta. rewrite !or_string_default.
  eapply meets_iff.
  - meets_parts.
    + apply meets_writeString.
    + apply meets_writeString.
    + apply meets_writeString.
    + apply meets_writeString.
    + apply meets_writeString.
    + apply meets_writeString.
    + apply meets_writeString.
    + apply meets_writeString.
    + apply meets_writeInt.
    + apply (meets_forOf _ _ Layout.prefixed fits_string), meets_writeString.
  - unfold Document.info_record, Document.optional.
    rewrite <- !(assoc (++)). reflexivity.
  - unfold fits_info. tauto.
Qed.

Lemma meets_writeHeader : meets writeHeader Document.header True.
Proof.
  unfold writeHeader, Document.header.
  eapply meets_iff;
    [apply meets_seq;
       [apply meets_total, (emits_writeFixedString magic 31)
       | apply meets_writeInt]
    | reflexivity |].
  unfold fits_int32. intuition lia.
Qed.

Lemma meets_document song :
  meets (writeHeader >> writeSongInfo song >> writeTracks song
           >> writeMeasures song)
        (Document.file song) (fits_song song).
Proof.
  eapply meets_iff.
  - meets_parts.
    + apply meets_writeHeader.
    + apply meets_writeSongInfo.
    + apply meets_writeTracks.
    + apply meets_writeMeasures.
  - unfold Document.file. rewrite <- !(assoc (++)). reflexivity.
  - unfold fits_song. tauto.
Qed.

Lemma bind_Ok {A B : Type} (a : A) (k : A -> result B) : bind (Ok a) k = k a.
Proof. reflexivity. Qed.

Lemma writeGP6File_run song :
  exists w0, wf w0 /\ toBuffer w0 = []
    /\ writeGP6File song
       = (w <- (writeHeader >> writeSongInfo song >> writeTracks song
                  >> writeMeasures song) w0;;
          Ok (toBuffer w)).
Proof.
  destruct (new_ok default_size) as (E0 & Hwf0 & B0);
    [unfold default_size; lia|].
  eexists. split; [exact Hwf0|]. split; [exact B0|].
  unfold writeGP6File. rewrite E0, bind_Ok. reflexivity.
Qed.

Lemma int32le_length v : length (Layout.int32le v) = 4%nat.
Proof. reflexivity. Qed.

Lemma prefixed_length s :
  length (Layout.prefixed s) = (4 + length (Buffer.from_utf8 s))%nat.
Proof. unfold Layout.prefixed. by rewrite length_app, int32le_length. Qed.

Lemma note_flags_bits n :
  Z.testbit (Layout.note_flags n) 0 = truthy_boolean (Note.ghost n)
  /\ Z.testbit (Layout.note_flags n) 1 = truthy_boolean (Note.accentuated n)
  /\ Z.testbit (Layout.note_flags n) 2
     = truthy_boolean (Note.heavyAccentuated n)
  /\ Z.testbit (Layout.note_flags n) 3 = truthy_boolean (Note.palmMute n)
  /\ Z.testbit (Layout.note_flags n) 4 = truthy_boolean (Note.vibrato n)
  /\ Z.testbit (Layout.note_flags n) 5 = truthy_boolean (Note.harmonic n)
  /\ Z.testbit (Layout.note_flags n) 6 = truthy_boolean (Note.trill n)
  /\ Z.testbit (Layout.note_flags n) 7 = truthy_boolean (Note.slide n).
Proof.
  unfold Layout.note_flags.
  destruct (truthy_boolean (Note.ghost n)),
    (truthy_boolean (Note.accentuated n)),
    (truthy_boolean (Note.heavyAccentuated n)),
    (truthy_boolean (Note.palmMute n)),
    (truthy_boolean (Note.vibrato n)),
    (truthy_boolean (Note.harmonic n)),
    (truthy_boolean (Note.trill n)),
    (truthy_boolean (Note.slide n)); repeat split; reflexivity.
Qed.

(** A run of a method that returns exactly when [P] holds throws
    otherwise. *)
Lemma meets_throws (m : method) bs (P : Prop) (w : BinaryWriter.t) :
  meets m bs P -> wf w -> ~ P -> exists e, m w = Throw e.
Proof.
  intros (_ & _ & G) Hwf HP.
  destruct (m w) as [w'|e] eqn:E; [|by exists e].
  destruct HP. exact (G w w' Hwf E).
Qed.







Lemma concat_int32le_length (l : list Z) :
  length (concat (map Layout.int32le l)) = (4 * length l)%nat.
Proof.
  induction l as [|x l IH]; simpl; [done|]. rewrite IH. lia.
Qed.



(** X13. [writeSongInfo] appends eight length-prefixed strings in the
    order title, subtitle, artist, album, author, copyright, writer,
    instructions, then the comment count and the comments, each
    length-prefixed.  A missing or empty optional text, and a missing
    comment list, are written as the four zero bytes of an empty string or
    of the count 0.  It returns exactly when every text is under 2^31
    bytes long (and there are less than 2^31 comments). *)
Theorem writeSongInfo_record (song : Song.t) (w : BinaryWriter.t) :
  wf w ->
  let info := Song.info song in
  let text o := Layout.prefixed (default [] o) in
  let comments := default [] (Song.comments info) in
  ((exists w', writeSongInfo song w = Ok w') <-> fits_info info)
  /\ (forall w', writeSongInfo song w = Ok w' ->
        toBuffer w'
        = toBuffer w ++ Layout.prefixed (Song.title info)
            ++ text (Song.subtitle info) ++ text (Song.artist info)
            ++ text (Song.album info) ++ text (Song.author info)
            ++ text (Song.copyright info) ++ text (Song.writer info)
            ++ text (Song.instructions info)
            ++ Layout.int32le (Z.of_nat (length comments))
            ++ concat (map Layout.prefixed comments))
  /\ text None = [0; 0; 0; 0] /\ text (Some []) = [0; 0; 0; 0]
  /\ (Song.comments info = None ->
      Layout.int32le (Z.of_nat (length comments))
        ++ concat (map Layout.prefixed comments) = [0; 0; 0; 0]).
Proof.
  intros Hwf info text comments.
  destruct (meets_run _ _ _ w (meets_writeSongInfo song) Hwf) as [Hiff Hrun].
  split; [done|]. split; [|split; [done|split; [done|]]].
  - intros w' E. by destruct (Hrun w' E) as (_ & B & _).
  - unfold comments. by intros ->.
Qed.

Lemma writeSongInfo_record_witness :
  wf Sample.writer /\ fits_info (Song.info Example.end_to_end)
  /\ exists w', writeSongInfo Example.end_to_end Sample.writer = Ok w'
       /\ toBuffer w'
          = ([4; 0; 0; 0] ++ [116; 101; 115; 116])
              ++ [0; 0; 0; 0] ++ [0; 0; 0; 0] ++ [0; 0; 0; 0]
              ++ [0; 0; 0; 0] ++ [0; 0; 0; 0] ++ [0; 0; 0; 0]
              ++ [0; 0; 0; 0] ++ [0; 0; 0; 0] ++ [].
Proof.
  assert (wf Sample.writer) as Hwf
    by (unfold wf; vm_compute; split; discriminate).
  assert (fits_info (Song.info Example.end_to_end)) as Hfit.
  { unfold fits_info, fits_string, fits_int32, Buffer.length.
    simpl. repeat split; try lia. apply Forall_nil_2. }
  split; [exact Hwf|]. split; [exact Hfit|].
  destruct (writeSongInfo_record Example.end_to_end _ Hwf)
    as (Hiff & Hrun & _).
  destruct (proj2 Hiff Hfit) as [w' E].
  exists w'. split; [exact E|]. exact (Hrun w' E).
Defined.

Lemma header_bytes :
  Document.header
  = [70; 73; 67; 72; 73; 69; 82; 32; 71; 85; 73; 84; 65; 82; 32; 80; 82;
     79; 32; 118; 54; 0; 0; 0; 0; 0; 0; 0; 0; 0; 0; 6; 0; 0; 0].
Proof. reflexivity. Qed.

Lemma info_record_length info : (36 <= length (Document.info_record info))%nat.
Proof.
  unfold Document.info_record, Document.optional.
  rewrite !length_app, !prefixed_length, int32le_length. lia.
Qed.

(** Running a method on a fresh writer and taking the written bytes. *)
Lemma run_to_buffer (m : method) bs (P : Prop) (w0 : BinaryWriter.t) :
  meets m bs P -> wf w0 -> toBuffer w0 = [] ->
  let r := (w <- m w0;; Ok (toBuffer w)) in
  ((exists bytes, r = Ok bytes) <-> P)
  /\ (~ P -> exists e, r = Throw e)
  /\ (forall bytes, r = Ok bytes -> bytes = bs).
Proof.
  intros Hm Hwf0 B0 r. subst r.
  destruct (meets_run _ _ _ w0 Hm Hwf0) as [Hiff Hrun].
  destruct (m w0) as [w'|e] eqn:Ew; simpl.
  - destruct (Hrun w' eq_refl) as (_ & B & _).
    assert (P) as HP by (apply Hiff; by exists w').
    split; [|split].
    + split; [done | intros _; by eexists].
    + intros Hno. by destruct Hno.
    + intros bytes E. injection E as <-. by rewrite B, B0.
  - split; [|split].
    + split; [intros [bytes E]; discriminate|].
      intros HP. apply Hiff in HP as [w' E]. discriminate.
    + intros _. by exists e.
    + intros bytes E. discriminate.
Qed.

Lemma file_length song : (79 <= length (Document.file song))%nat.
Proof.
  pose proof (info_record_length (Song.info song)) as Hinfo.
  assert (length Document.header = 35%nat) as Hh by reflexivity.
  assert (4 <= length (Document.track_table song))%nat as Ht.
  { unfold Document.track_table. rewrite length_app, int32le_length. lia. }
  assert (4 <= length (Document.measure_table song))%nat as Hm.
  { unfold Document.measure_table. rewrite length_app, int32le_length. lia. }
  unfold Document.file. rewrite !length_app. lia.
Qed.



Lemma built_measureCount song :
  built song -> Song.measureCount song = max_measures (Song.tracks song).
Proof.
  induction 1; simpl; [done| |done].
  rewrite max_measures_snoc. by rewrite IHbuilt.
Qed.

Lemma max_measures_bound tracks track :
  track ∈ tracks ->
  Z.of_nat (length (Track.measures track)) <= max_measures tracks.
Proof.
  induction tracks as [|t l IH]; intros Hin.
  - by apply elem_of_nil in Hin.
  - apply elem_of_cons in Hin as [->|Hin]; simpl; [lia|].
    specialize (IH Hin). lia.
Qed.

Lemma written_measures_built (song : Song.t) (track : Track.t) :
  built song -> track ∈ Song.tracks song ->
  Document.written_measures song track
  = Track.measures track
      ++ replicate (Z.to_nat (Song.measureCount song)
                    - length (Track.measures track)) emptyMeasure.
Proof.
  intros Hb Hin. unfold Document.written_measures.
  apply padded_short.
  pose proof (max_measures_bound _ _ Hin).
  rewrite <- (built_measureCount song Hb) in *. lia.
Qed.




(** * Properties of the file handler *)

Lemma endsWith_suffix (s suffix : jsstring) :
  FileHandlers.endsWith s suffix = true <-> exists stem, s = stem ++ suffix.
Proof.
  unfold FileHandlers.endsWith. split.
  - intros [Hlen Hdrop%bool_decide_eq_true]%andb_true_iff.
    exists (take (length s - length suffix) s).
    rewrite <- Hdrop at 2. by rewrite take_drop.
  - intros [stem ->]. apply andb_true_iff. split.
    + apply Nat.leb_le. rewrite length_app. lia.
    + apply bool_decide_eq_true. rewrite length_app.
      replace (length stem + length suffix - length suffix)%nat
        with (length stem) by lia.
      by rewrite drop_app_length.
Qed.

(** X16. The file name that [createGuitarProFile] writes to always ends
    with ".gp6": a name that already ends with it is kept as it is, any
    other gets ".gp6" appended (the comparison is case-sensitive), and
    normalising twice changes nothing more. *)
Theorem finalFilename_extension (filename : jsstring) :
  let final := FileHandlers.finalFilename filename in
  (exists stem, final = stem ++ FileHandlers.extension)
  /\ ((exists stem, filename = stem ++ FileHandlers.extension) ->
      final = filename)
  /\ (~ (exists stem, filename = stem ++ FileHandlers.extension) ->
      final = filename ++ FileHandlers.extension)
  /\ FileHandlers.finalFilename final = final.
Proof.
  intros final. subst final. unfold FileHandlers.finalFilename.
  destruct (FileHandlers.endsWith filename FileHandlers.extension) eqn:E.
  - pose proof (proj1 (endsWith_suffix _ _) E) as Hs.
    split; [done|]. split; [done|]. split; [by intros []|].
    by rewrite E.
  - assert (~ (exists stem, filename = stem ++ FileHandlers.extension)) as Hn.
    { intros Hs%endsWith_suffix. congruence. }
    split; [by eexists|]. split; [by intros ?|]. split; [done|].
    assert (FileHandlers.endsWith (filename ++ FileHandlers.extension)
              FileHandlers.extension = true) as ->
      by (apply endsWith_suffix; by eexists).
    done.
Qed.

Lemma finalFilename_extension_witness :
  (exists stem, Example.song_gp6 = stem ++ FileHandlers.extension)
  /\ ~ (exists stem, Example.song_GP6 = stem ++ FileHandlers.extension)
  /\ FileHandlers.finalFilename Example.song_gp6 = Example.song_gp6
  /\ FileHandlers.finalFilename Example.song_GP6
     = Example.song_GP6 ++ FileHandlers.extension
  /\ FileHandlers.finalFilename Example.song_name = Example.song_gp6.
Proof.
  assert (exists stem, Example.song_gp6 = stem ++ FileHandlers.extension)
    as H1 by (exists Example.song_name; reflexivity).
  assert (~ (exists stem, Example.song_GP6 = stem ++ FileHandlers.extension))
    as H2.
  { intros Hs. apply endsWith_suffix in Hs. vm_compute in Hs. discriminate. }
  split; [exact H1|]. split; [exact H2|]. split; [|split; [|reflexivity]].
  - exact (proj1 (proj2 (finalFilename_extension Example.song_gp6)) H1).
  - exact (proj1 (proj2 (proj2 (finalFilename_extension Example.song_GP6)))
             H2).
Defined.

Lemma fold_addNote (l : list FileHandlers.NoteData) (b : Beat.t) :
  let b' :=
    fold_left (fun beat noteData =>
                 Beat.addNoteToBeat beat (FileHandlers.note noteData)) l b in
  Beat.notes b' = Beat.notes b ++ map FileHandlers.note l
  /\ Beat.rest b' = match l with [] => Beat.rest b | _ => false end
  /\ Beat.duration b' = Beat.duration b
  /\ Beat.dotted b' = Beat.dotted b
  /\ Beat.tuplet b' = Beat.tuplet b
  /\ Beat.text b' = Beat.text b.
Proof.
  revert b. induction l as [|x l IH]; intros b; simpl.
  - by rewrite app_nil_r.
  - destruct (IH (Beat.addNoteToBeat b (FileHandlers.note x)))
      as (Hn & Hr & Hd & Hdot & Ht & Hx).
    cbv zeta in *. rewrite Hn, Hr, Hd, Hdot, Ht, Hx. simpl.
    rewrite <- (assoc (++)). repeat split. by destruct l.
Qed.

Lemma fold_addBeat (l : list FileHandlers.BeatData) (m : Measure.t) :
  let m' :=
    fold_left (fun measure beatData =>
                 Measure.addBeatToMeasure measure (FileHandlers.beat beatData))
              l m in
  Measure.beats m' = Measure.beats m ++ map FileHandlers.beat l
  /\ Measure.timeSignature m' = Measure.timeSignature m
  /\ Measure.keySignature m' = Measure.keySignature m
  /\ Measure.tempo m' = Measure.tempo m
  /\ Measure.marker m' = Measure.marker m
  /\ Measure.repeatOpen m' = Measure.repeatOpen m
  /\ Measure.repeatClose m' = Measure.repeatClose m.
Proof.
  revert m. induction l as [|x l IH]; intros m; simpl.
  - by rewrite app_nil_r.
  - destruct (IH (Measure.addBeatToMeasure m (FileHandlers.beat x)))
      as (H1 & H2 & H3 & H4 & H5 & H6 & H7).
    cbv zeta in *. rewrite H1, H2, H3, H4, H5, H6, H7. simpl.
    by rewrite <- (assoc (++)).
Qed.

Lemma fold_addMeasure (l : list FileHandlers.MeasureData) (t : Track.t) :
  let t' :=
    fold_left (fun track measureData =>
                 Track.addMeasureToTrack track
                   (FileHandlers.measure measureData)) l t in
  Track.measures t' = Track.measures t ++ map FileHandlers.measure l
  /\ Track.name t' = Track.name t
  /\ Track.tuning t' = Track.tuning t.
Proof.
  revert t. induction l as [|x l IH]; intros t; simpl.
  - by rewrite app_nil_r.
  - destruct (IH (Track.addMeasureToTrack t (FileHandlers.measure x)))
      as (H1 & H2 & H3).
    cbv zeta in *. rewrite H1, H2, H3. simpl.
    by rewrite <- (assoc (++)).
Qed.

Lemma fold_addTrack (l : list FileHandlers.TrackData) (s : Song.t) :
  let s' :=
    fold_left (fun song trackData =>
                 Song.addTrackToSong song (FileHandlers.track trackData))
              l s in
  Song.tracks s' = Song.tracks s ++ map FileHandlers.track l
  /\ Song.info s' = Song.info s
  /\ Song.tempo s' = Song.tempo s
  /\ Song.key s' = Song.key s
  /\ (built s -> built s').
Proof.
  revert s. induction l as [|x l IH]; intros s; simpl.
  - by rewrite app_nil_r.
  - destruct (IH (Song.addTrackToSong s (FileHandlers.track x)))
      as (H1 & H2 & H3 & H4 & H5).
    cbv zeta in *. rewrite H1, H2, H3, H4. simpl.
    rewrite <- (assoc (++)). repeat split.
    intros Hb. apply H5. by constructor.
Qed.

Lemma or_number_nonzero o d : d <> 0 -> FileHandlers.or_number o d <> 0.
Proof.
  intros Hd. unfold FileHandlers.or_number.
  destruct o as [n|]; [|done]. by destruct (Z.eqb_spec n 0).
Qed.

(** X17. The beat that [createGuitarProFile] makes from the data of a
    beat: its duration is the given one, or quarter when that is missing
    or 0; it has one note per given note, in order, with the given fret
    and string and with the given velocity, or 95 when that is missing or
    0; it is dotted when asked; and it is a rest only when asked and no
    note is given, since attaching a note clears the rest flag that was
    set before. *)
Theorem handler_beat (beatData : FileHandlers.BeatData) :
  let beat := FileHandlers.beat beatData in
  let given := default [] (FileHandlers.notes beatData) in
  Beat.duration beat
  = FileHandlers.or_number (FileHandlers.duration beatData) 4
  /\ Beat.dotted beat = truthy_boolean (FileHandlers.dotted beatData)
  /\ Beat.rest beat
     = truthy_boolean (FileHandlers.rest beatData)
       && bool_decide (given = [])
  /\ Beat.tuplet beat = 1 /\ Beat.text beat = None
  /\ map (fun n => (Note.fret n, Note.string n, Note.velocity n))
         (Beat.notes beat)
     = map (fun d => (FileHandlers.fret d, FileHandlers.string d,
                      FileHandlers.or_number (FileHandlers.velocity d) 95))
           given
  /\ Forall (fun n => Note.velocity n <> 0
                      /\ Layout.note_flags n = 0) (Beat.notes beat).
Proof.
  intros beat given. subst beat given. unfold FileHandlers.beat.
  destruct (FileHandlers.notes beatData) as [l|]; simpl.
  - match goal with |- context [fold_left ?f l ?b] =>
      destruct (fold_addNote l b) as (Hn & Hr & Hd & Hdot & Ht & Hx)
    end.
    cbv zeta in *. rewrite Hn, Hr, Hd, Hdot, Ht, Hx. clear.
    destruct (truthy_boolean (FileHandlers.dotted beatData)),
      (truthy_boolean (FileHandlers.rest beatData)); simpl;
      (repeat split;
       [ by destruct l
       | by rewrite map_map
       | apply Forall_map, Forall_forall; intros d _; simpl;
         split; [by apply or_number_nonzero | done] ]).
  - destruct (truthy_boolean (FileHandlers.dotted beatData)),
      (truthy_boolean (FileHandlers.rest beatData)); simpl;
      repeat split; constructor.
Qed.

Lemma max_measures_map (tracks : list Track.t) :
  max_measures tracks
  = foldr Z.max 0
          (map (fun track => Z.of_nat (length (Track.measures track))) tracks).
Proof. induction tracks as [|t l IH]; simpl; [done | by rewrite IH]. Qed.


Lemma handler_beat_witness :
  Beat.rest (FileHandlers.beat Example.rest_with_notes) = false
  /\ Beat.dotted (FileHandlers.beat Example.rest_with_notes) = true
  /\ Beat.duration (FileHandlers.beat Example.rest_with_notes) = 4
  /\ map (fun n => (Note.fret n, Note.string n, Note.velocity n))
         (Beat.notes (FileHandlers.beat Example.rest_with_notes))
     = [(3, 1, 95); (5, 2, 80)].
Proof.
  destruct (handler_beat Example.rest_with_notes)
    as (Hd & Hdot & Hr & _ & _ & Hn & _).
  split; [exact Hr|]. split; [exact Hdot|]. split; [exact Hd | exact Hn].
Defined.



